(** * uarch-bench: memory region construction (util.cpp)

    A shallow embedding of the huge-page allocator, the alignment engine
    and the shuffled region builder of [util.cpp], and the properties the
    specification states about them.

    Conventions.
    - [size_t], [uintptr_t] are 64-bit unsigned: values are [Z] in
      [0, 2^64) and every arithmetic operation of the source on them is
      written with its wrap-around ([wrap]).
    - A pointer is its address, a 64-bit value; pointer arithmetic
      ([p + k] on a [char*], [storage + i] on a [CacheLine*]) is addition
      of addresses modulo 2^64 ([ptr_add]), as on the x86-64 targets of
      the benchmark.
    - Memory is a map from byte addresses to bytes.
    - The two objects [shuffled_region] takes from the C++ free store,
      the storage of the index vector and the region descriptor, are kept
      as values (a list, a record), not as bytes of the memory: their
      addresses are the choice of [operator new] and the program never
      computes with them.  That they are obtained, and the one that is
      released, is recorded in the trace.  [operator new] is taken to
      succeed (a failure throws, and nothing in util.cpp catches it).
    - An [assert] that fails ends the run with [Abort]; the unbounded
      [do ... while] of [count] runs on fuel and ends with [Hang] when the
      fuel is used up. *)

From Stdlib Require Import ZArith List Lia Bool Permutation.
Import ListNotations.
Open Scope Z_scope.

(** ** Machine integers *)

Definition wrap (x : Z) : Z := x mod 2 ^ 64.

(** Pointer arithmetic: [p + k] on a [char*]. *)
Definition ptr_add (p k : Z) : Z := wrap (p + k).

(** [const size_t TWO_MB = 2 * 1024 * 1024;] *)
Definition TWO_MB : Z := 2 * 1024 * 1024.

(** [const int STORAGE_SIZE = 100 * 1024 * 1024;] *)
Definition STORAGE_SIZE : Z := 100 * 1024 * 1024.

(** Size of a [CacheLine] pointer on the x86-64 targets of the benchmark. *)
Definition PTR_SIZE : Z := 8.

(** Modelled from the spec: [is_pow2] is declared in util.hpp, which is
    not among the sources; the specification only says that the alignment
    "is a power of two". *)
Definition is_pow2 (x : Z) : bool := (0 <? x) && (x =? 2 ^ Z.log2 x).

(** ** Byte memory *)

Definition memory : Type := Z -> Z.

(** [std::memset(p, c, n)]: [c] is converted to [unsigned char]. *)
Definition memset_mem (m : memory) (p c n : Z) : memory :=
  fun a => if (p <=? a) && (a <? p + n) then c mod 256 else m a.

Definition store_byte (m : memory) (a v : Z) : memory :=
  fun x => if x =? a then v mod 256 else m x.

(** Little-endian load and store of [n] bytes. *)
Fixpoint load_le (n : nat) (m : memory) (a : Z) : Z :=
  match n with
  | O => 0
  | S n' => m a + 256 * load_le n' m (a + 1)
  end.

Fixpoint store_le (n : nat) (m : memory) (a v : Z) : memory :=
  match n with
  | O => m
  | S n' => store_le n' (store_byte m a v) (a + 1) (v / 256)
  end.

Definition load64 (m : memory) (a : Z) : Z := load_le 8 m a.
Definition store64 (m : memory) (a v : Z) : memory := store_le 8 m a v.

(** ** Outcomes, assertions, effects *)

Inductive assertion : Type :=
| A_memalign_result     (* assert(result == 0)                              *)
| A_align_nonnull       (* assert(r)                                        *)
| A_align_mask          (* assert((((uintptr_t)r) & (base_alignment-1))==0) *)
| A_required_size       (* assert(required_size <= STORAGE_SIZE)            *)
| A_is_pow2             (* assert(is_pow2(base_alignment))                  *)
| A_alignment_max       (* assert(base_alignment <= TWO_MB)                 *)
| A_region_capacity     (* assert(size + offset <= MAX_SHUFFLED_REGION_SIZE)*)
| A_region_multiple     (* assert(size % UB_CACHE_LINE_SIZE == 0)           *)
| A_region_lines        (* assert(size_lines > 0)                           *)
| A_region_count.       (* assert(count(storage) == size_lines)             *)

Inductive outcome (A : Type) : Type :=
| Done (a : A)
| Abort (why : assertion)
| Hang.
Arguments Done {A} a.
Arguments Abort {A} why.
Arguments Hang {A}.

(** Calls into the operating system, the CPU and the C++ free store, in
    program order.  [EvNewVector n] is the storage a
    [std::vector<size_t>] of [n] entries obtains when it is constructed,
    [EvDeleteVector n] its release by the destructor of the vector, and
    [EvNewRegion size start] the [new region{ size, start }], which
    nothing deletes. *)
Inductive event : Type :=
| EvMemalign (alignment size ptr : Z)
| EvMadvise (ptr len : Z)
| EvMemset (ptr c n : Z)
| EvClflush (ptr : Z)
| EvMfence
| EvNewVector (n : Z)
| EvDeleteVector (n : Z)
| EvNewRegion (size start : Z).

(** The process state: the global [storage_ptr], the function-local static
    [storage_] of [shuffled_region] ([None] until its initialiser has run),
    the memory (without the objects of the free store), the blocks
    obtained from [posix_memalign] as
    (base, length), oldest first, and the trace of external calls. *)
Record state : Type := mkState {
  storage_ptr : Z;
  storage_ : option Z;
  mem : memory;
  blocks : list (Z * Z);
  events : list event
}.

Definition initial_state : state :=
  mkState 0 None (fun _ => 0) [] [].

Definition M (A : Type) : Type := state -> outcome (A * state).

Definition ret {A} (a : A) : M A := fun s => Done (a, s).

Definition bind {A B} (c : M A) (k : A -> M B) : M B :=
  fun s => match c s with
           | Done (a, s') => k a s'
           | Abort w => Abort w
           | Hang => Hang
           end.

Notation "x <- c ;; k" := (bind c (fun x => k))
  (at level 61, c at next level, right associativity).
Notation "c ;; k" := (bind c (fun _ => k))
  (at level 61, right associativity).

Definition assert (b : bool) (w : assertion) : M unit :=
  fun s => if b then Done (tt, s) else Abort w.

Definition emit (e : event) : M unit :=
  fun s => Done (tt, mkState (storage_ptr s) (storage_ s) (mem s) (blocks s)
                             (events s ++ [e])).

Definition memset (p c n : Z) : M unit :=
  fun s => Done (tt, mkState (storage_ptr s) (storage_ s)
                             (memset_mem (mem s) p c n) (blocks s)
                             (events s ++ [EvMemset p c n])).

Definition set_storage_ptr (p : Z) : M unit :=
  fun s => Done (tt, mkState p (storage_ s) (mem s) (blocks s) (events s)).

Definition set_storage_ (p : Z) : M unit :=
  fun s => Done (tt, mkState (storage_ptr s) (Some p) (mem s) (blocks s)
                             (events s)).

Definition set_mem (m : memory) : M unit :=
  fun s => Done (tt, mkState (storage_ptr s) (storage_ s) m (blocks s)
                             (events s)).

(** The region descriptor [region{ size, storage }]. *)
Record region : Type := mkRegion { r_size : Z; r_start : Z }.

(** ** Stand-ins for the C library, used to run the model *)

(** A bump allocator: the next block starts at the first multiple of the
    alignment above every block handed out so far. *)
Definition blocks_top (bs : list (Z * Z)) : Z :=
  fold_right (fun b t => Z.max (fst b + snd b) t) TWO_MB bs.

Definition bump_memalign (bs : list (Z * Z)) (alignment size : Z) : option Z :=
  if (0 <? alignment) && (0 <=? size) then
    let p := alignment * (blocks_top bs / alignment + 1) in
    if p + size <? 2 ^ 64 then Some p else None
  else None.

(** A capacity for the large arena, for running the model
    ([MAX_SHUFFLED_REGION_SIZE] is defined in util.hpp). *)
Definition run_capacity : Z := 256 * 1024 * 1024.

(** A state of another run: the large arena is in place at another
    address and the memory holds other bytes. *)
Definition other_run_state : state :=
  mkState 0 (Some (5 * TWO_MB)) (fun _ => 7)
          [(4 * TWO_MB, run_capacity + TWO_MB)] [].

(** An allocator that is out of memory. *)
Definition no_memalign (bs : list (Z * Z)) (alignment size : Z) : option Z :=
  None.

(** A seeded shuffle: every element is inserted at a position drawn from a
    linear congruential generator. *)
Fixpoint insert_at (k : nat) (x : Z) (l : list Z) : list Z :=
  match k, l with
  | S k', y :: l' => y :: insert_at k' x l'
  | _, _ => x :: l
  end.

Definition lcg (g : Z) : Z := (6364136223846793005 * g + 1442695040888963407) mod 2 ^ 64.

Fixpoint lcg_shuffle_from (g : Z) (l acc : list Z) : list Z :=
  match l with
  | [] => acc
  | x :: l' =>
      let g' := lcg g in
      lcg_shuffle_from g' l'
        (insert_at (Z.to_nat (g' / 2 ^ 48 mod (Z.of_nat (length acc) + 1))) x acc)
  end.

Definition lcg_shuffle (seed : Z) (l : list Z) : list Z :=
  lcg_shuffle_from seed l [].

(** ** The program *)

Module Util.

Section Program.

(** What util.cpp takes from its environment and from util.hpp:
    [posix_memalign] (given the blocks already handed out, the alignment
    and the length; [None] is a non-zero result), [std::shuffle] driven by
    a fresh [std::mt19937_64] built from the given seed, the constants
    [MAX_SHUFFLED_REGION_SIZE] and [UB_CACHE_LINE_SIZE], and the number of
    entries of [CacheLine::nexts]. *)
Variable posix_memalign : list (Z * Z) -> Z -> Z -> option Z.
Variable std_shuffle : Z -> list Z -> list Z.
Variable MAX_SHUFFLED_REGION_SIZE : Z.
Variable UB_CACHE_LINE_SIZE : Z.
Variable NEXTS : nat.

Definition fail {A} (w : assertion) : M A := fun _ => Abort w.

Definition hang {A} : M A := fun _ => Hang.

Definition get_storage_ptr : M Z := fun s => Done (storage_ptr s, s).

Definition get_mem : M memory := fun s => Done (mem s, s).

Definition call_posix_memalign (alignment size : Z) : M (option Z) :=
  fun s => match posix_memalign (blocks s) alignment size with
           | Some p =>
               Done (Some p,
                     mkState (storage_ptr s) (storage_ s) (mem s)
                             (blocks s ++ [(p, size)])
                             (events s ++ [EvMemalign alignment size p]))
           | None => Done (None, s)
           end.

(** [void *new_huge_ptr(size_t size)] *)
Definition new_huge_ptr (size : Z) : M Z :=
  result <- call_posix_memalign TWO_MB (wrap (size + TWO_MB)) ;;
  match result with
  | None => fail A_memalign_result
  | Some ptr =>
      emit (EvMadvise ptr (wrap (size + TWO_MB))) ;;
      let ptr := ptr_add ptr TWO_MB in
      memset ptr 1 size ;;
      memset ptr 0 size ;;
      ret ptr
  end.

(** [void *align(size_t base_alignment, size_t required_size, void* p,
    size_t space)].  The local [r] is first [None] (unset) or the null
    pointer [Some 0]; the assignment that follows the [if] overwrites it
    in both cases, as in the source. *)
Definition align (base_alignment required_size p space : Z) : M Z :=
  let pn := p in
  let aligned :=
    Z.land (wrap (wrap (pn + base_alignment) - 1)) (wrap (- base_alignment)) in
  let padding := wrap (aligned - pn) in
  let r : option Z :=
    if space <? wrap (required_size + padding) then Some 0 else None in
  let space := wrap (space - padding) in
  let r : Z := aligned in
  assert (negb (r =? 0)) A_align_nonnull ;;
  assert (Z.land r (wrap (base_alignment - 1)) =? 0) A_align_mask ;;
  ret r.

(** [void *aligned_ptr(size_t base_alignment, size_t required_size)] *)
Definition aligned_ptr (base_alignment required_size : Z) : M Z :=
  assert (required_size <=? STORAGE_SIZE) A_required_size ;;
  assert (is_pow2 base_alignment) A_is_pow2 ;;
  assert (base_alignment <=? TWO_MB) A_alignment_max ;;
  p <- get_storage_ptr ;;
  (if p =? 0
   then (q <- new_huge_ptr STORAGE_SIZE ;; set_storage_ptr q)
   else ret tt) ;;
  p <- get_storage_ptr ;;
  align base_alignment required_size p STORAGE_SIZE.

(** [void *misaligned_ptr(size_t base_alignment, size_t required_size,
    ssize_t misalignment)] *)
Definition misaligned_ptr (base_alignment required_size misalignment : Z) : M Z :=
  p <- aligned_ptr base_alignment required_size ;;
  ret (ptr_add p misalignment).

(** Modelled from the spec: [CacheLine::setNexts] is declared in util.hpp,
    which is not among the sources.  A slot holds "one or more
    pointer-sized next slots"; linking stores the successor in them,
    field 0 first. *)
Fixpoint fill_nexts (k : nat) (m : memory) (field next : Z) : memory :=
  match k with
  | O => m
  | S k' => fill_nexts k' (store64 m field next) (field + PTR_SIZE) next
  end.

Definition setNexts (m : memory) (p next : Z) : memory :=
  fill_nexts NEXTS m p next.

(** [storage + i] on a [CacheLine*]: the static assertions of the source
    make [sizeof(CacheLine)] equal to [UB_CACHE_LINE_SIZE]. *)
Definition line_ptr (storage i : Z) : Z :=
  ptr_add storage (UB_CACHE_LINE_SIZE * i).

(** [size_t count(CacheLine* first)]: the [do ... while (p != first)]. *)
Fixpoint count_loop (fuel : nat) (m : memory) (first p count : Z) : option Z :=
  match fuel with
  | O => None
  | S fuel' =>
      let p := load64 m p in
      let count := wrap (count + 1) in
      if negb (p =? first) then count_loop fuel' m first p count
      else Some count
  end.

Definition count (fuel : nat) (m : memory) (first : Z) : option Z :=
  count_loop fuel m first first 0.

(** [std::iota(indexes.begin(), indexes.end(), 0)] on a vector of
    [size_lines] entries. *)
Definition iota (size_lines : Z) : list Z :=
  map Z.of_nat (seq 0 (Z.to_nat size_lines)).

(** The linking loop: [rest] is [indexes[1..]], [p] the current line. *)
Fixpoint link_lines (storage : Z) (rest : list Z) (p : Z) (m : memory)
  : Z * memory :=
  match rest with
  | [] => (p, m)
  | i :: rest' =>
      let next := line_ptr storage i in
      link_lines storage rest' next (setNexts m p next)
  end.

(** Lines 170-176: [p] starts at the line of [indexes[0]], the loop links
    the lines of [indexes[1..]] in turn, and the last line is linked back
    to the line of [indexes[0]]. *)
Definition link_cycle (storage : Z) (indexes : list Z) (m : memory) : memory :=
  let p := line_ptr storage (nth 0 indexes 0) in
  let '(p, m) := link_lines storage (tl indexes) p m in
  setNexts m p (line_ptr storage (nth 0 indexes 0)).

(** The flush loop [for (p = storage, e = p + size; p < e; p += LINE)]. *)
Fixpoint clflush_loop (fuel : nat) (p e : Z) : M unit :=
  if p <? e then
    match fuel with
    | O => hang
    | S fuel' =>
        emit (EvClflush p) ;;
        clflush_loop fuel' (ptr_add p UB_CACHE_LINE_SIZE) e
    end
  else ret tt.

(** The initialiser of the function-local static [storage_] runs the first
    time control passes through its declaration. *)
Definition static_storage_ : M Z :=
  fun s => match storage_ s with
           | Some p => Done (p, s)
           | None =>
               (p <- new_huge_ptr MAX_SHUFFLED_REGION_SIZE ;;
                set_storage_ p ;;
                ret p) s
           end.

(** The three assertions on the arguments of [shuffled_region]. *)
Definition shuffled_region_asserts (size offset : Z) : M Z :=
  assert (wrap (size + offset) <=? MAX_SHUFFLED_REGION_SIZE) A_region_capacity ;;
  assert (size mod UB_CACHE_LINE_SIZE =? 0) A_region_multiple ;;
  let size_lines := size / UB_CACHE_LINE_SIZE in
  assert (0 <? size_lines) A_region_lines ;;
  ret size_lines.

(** The permutation of the line indexes: [std::iota] then [std::shuffle]
    with [std::mt19937_64{123}]. *)
Definition shuffled_indexes (size_lines : Z) : list Z :=
  std_shuffle 123 (iota size_lines).

(** [region& shuffled_region(const size_t size, const size_t offset)].
    The vector [indexes] is constructed on line 166, after the fill of
    the region, and destroyed when the function returns, after the
    operand of the [return] statement, the [new region], has been
    evaluated.  A failed assertion ends the process, no destructor
    runs. *)
Definition shuffled_region (fuel : nat) (size offset : Z) : M region :=
  size_lines <- shuffled_region_asserts size offset ;;
  storage_ <- static_storage_ ;;
  let storage := ptr_add storage_ offset in
  memset storage (-1) size ;;
  emit (EvNewVector size_lines) ;;
  let indexes := shuffled_indexes size_lines in
  m <- get_mem ;;
  set_mem (link_cycle storage indexes m) ;;
  m <- get_mem ;;
  match count fuel m storage with
  | None => hang
  | Some n =>
      assert (n =? size_lines) A_region_count ;;
      clflush_loop fuel storage (ptr_add storage size) ;;
      emit EvMfence ;;
      emit (EvNewRegion size storage) ;;
      emit (EvDeleteVector size_lines) ;;
      ret (mkRegion size storage)
  end.

End Program.

End Util.

Import Util.

(** ** Invariants and observations *)

(** The lines reached from [p] by following [nexts[0]] [n] times. *)
Fixpoint walk (n : nat) (m : memory) (p : Z) : list Z :=
  match n with
  | O => []
  | S n' => let q := load64 m p in q :: walk n' m q
  end.

(** The lines of [l], taken as indexes from [storage], are linked in a
    ring in the order of [l]: each line's [nexts[0]] is the address of the
    line of the following index, and the last one's that of the first. *)
Definition linked (LINE storage : Z) (m : memory) (l : list Z) : Prop :=
  forall t, (t < length l)%nat ->
    load64 m (line_ptr LINE storage (nth t l 0)) =
    line_ptr LINE storage (nth ((t + 1) mod length l) l 0).

(** An arena pointer, once set, is the pointer [new_huge_ptr] returned
    for a block of [size] usable bytes: non-null, on a 2MB boundary, 2MB
    into a block of [size + TWO_MB] bytes that is in the list of blocks. *)
Definition arena_ok (bs : list (Z * Z)) (p size : Z) : Prop :=
  0 < p /\ p mod TWO_MB = 0 /\ p + size < 2 ^ 64 /\
  In (p - TWO_MB, size + TWO_MB) bs.

Definition state_ok (MAX : Z) (s : state) : Prop :=
  (storage_ptr s <> 0 -> arena_ok (blocks s) (storage_ptr s) STORAGE_SIZE) /\
  (forall p, storage_ s = Some p -> arena_ok (blocks s) p MAX).

(** The address [align] computes, for a power-of-two alignment and a base
    far enough from the top of the address space: the first multiple of
    the alignment that is not below the base. *)
Definition align_up (a p : Z) : Z := a * ((p + a - 1) / a).

(** The address [aligned] and the padding [aligned - pn] that [align]
    computes from [base_alignment] and [p] on lines 95 to 97. *)
Definition align_aligned (base_alignment p : Z) : Z :=
  Z.land (wrap (wrap (p + base_alignment) - 1)) (wrap (- base_alignment)).

Definition align_padding (base_alignment p : Z) : Z :=
  wrap (align_aligned base_alignment p - p).

(** The state [new_huge_ptr size] leaves when [posix_memalign] hands out
    the block at [raw]. *)
Definition after_new_huge_ptr (s : state) (raw size : Z) : state :=
  mkState (storage_ptr s) (storage_ s)
          (memset_mem (memset_mem (mem s) (ptr_add raw TWO_MB) 1 size)
                      (ptr_add raw TWO_MB) 0 size)
          (blocks s ++ [(raw, wrap (size + TWO_MB))])
          (events s ++ [EvMemalign TWO_MB (wrap (size + TWO_MB)) raw;
                        EvMadvise raw (wrap (size + TWO_MB));
                        EvMemset (ptr_add raw TWO_MB) 1 size;
                        EvMemset (ptr_add raw TWO_MB) 0 size]).

(** The state a first call of [aligned_ptr] leaves: the arena has been
    created and [storage_ptr] points to it. *)
Definition after_first_aligned_ptr (s : state) (raw : Z) : state :=
  let s' := after_new_huge_ptr s raw STORAGE_SIZE in
  mkState (ptr_add raw TWO_MB) (storage_ s') (mem s') (blocks s') (events s').

(** The state the initialiser of [storage_] leaves when [posix_memalign]
    hands out the block at [raw]. *)
Definition after_static_init (MAX : Z) (s : state) (raw : Z) : state :=
  let s' := after_new_huge_ptr s raw MAX in
  mkState (storage_ptr s') (Some (ptr_add raw TWO_MB)) (mem s') (blocks s')
          (events s').

(** The line [i] of the region at [storage] lies in the address space. *)
Definition line_in_space (LINE storage i : Z) : Prop :=
  0 <= storage + LINE * i /\ storage + LINE * i + LINE <= 2 ^ 64.

(** The index of the line at address [a] in the region at [storage]. *)
Definition line_index (LINE storage a : Z) : Z := (a - storage) / LINE.

(** The position of the first [x] in [l]. *)
Fixpoint index_of (x : Z) (l : list Z) : nat :=
  match l with
  | [] => O
  | y :: l' => if y =? x then O else S (index_of x l')
  end.

(** The line indexes a walk of [j] steps from line 0 goes through, on a
    ring linked in the order of the index vector [l]: the entries of [l]
    that follow the entry 0, cyclically. *)
Definition ring_order (l : list Z) (j : nat) : list Z :=
  map (fun t => nth ((index_of 0 l + 1 + t) mod length l) l 0) (seq 0 j).

(** What the program assumes of the constants of util.hpp: the capacity
    of the large arena is a [size_t] that leaves room for the 2MB margin
    of [new_huge_ptr], and the [nexts] of a line, at least one, fit in the
    line. *)
Definition capacity_ok (MAX : Z) : Prop :=
  0 <= MAX /\ MAX + TWO_MB < 2 ^ 64.

Definition layout_ok (LINE : Z) (NEXTS : nat) : Prop :=
  (1 <= NEXTS)%nat /\ PTR_SIZE * Z.of_nat NEXTS <= LINE.

(** What a successful [posix_memalign] guarantees. *)
Definition memalign_ok (pm : list (Z * Z) -> Z -> Z -> option Z) : Prop :=
  forall bs alignment size p,
    0 < alignment -> pm bs alignment size = Some p ->
    0 < p /\ p mod alignment = 0 /\ p + size < 2 ^ 64.

(** What [std::shuffle] guarantees: the result is a rearrangement. *)
Definition shuffle_ok (sh : Z -> list Z -> list Z) : Prop :=
  forall seed l, Permutation l (sh seed l).

(** The calls of the public interface, and a run of a sequence of them:
    a call that aborts or hangs ends the process. *)
Inductive call : Type :=
| CallAligned (base_alignment required_size : Z)
| CallMisaligned (base_alignment required_size misalignment : Z)
| CallShuffled (fuel : nat) (size offset : Z).

Section Runs.

Variable posix_memalign : list (Z * Z) -> Z -> Z -> option Z.
Variable std_shuffle : Z -> list Z -> list Z.
Variable MAX_SHUFFLED_REGION_SIZE : Z.
Variable UB_CACHE_LINE_SIZE : Z.
Variable NEXTS : nat.

(** The pointer a call returns (the region's first line for
    [shuffled_region]) and the state it leaves. *)
Definition run_call (c : call) : M Z :=
  match c with
  | CallAligned a n => aligned_ptr posix_memalign a n
  | CallMisaligned a n k => misaligned_ptr posix_memalign a n k
  | CallShuffled fuel size offset =>
      r <- shuffled_region posix_memalign std_shuffle MAX_SHUFFLED_REGION_SIZE
             UB_CACHE_LINE_SIZE NEXTS fuel size offset ;;
      ret (r_start r)
  end.

(** The calls of a process that returned, oldest first, each with the
    pointer it returned and the state it left. *)
Fixpoint run_calls (cs : list call) (s : state) : list (call * Z * state) :=
  match cs with
  | [] => []
  | c :: cs' =>
      match run_call c s with
      | Done (p, s') => (c, p, s') :: run_calls cs' s'
      | _ => []
      end
  end.

End Runs.

(** [len] bytes from [p] on lie inside one of the blocks [bs]. *)
Definition in_block (bs : list (Z * Z)) (p len : Z) : Prop :=
  exists base blen, In (base, blen) bs /\ base <= p /\ p + len <= base + blen.

(** The number of arenas that have not been created yet. *)
Definition arenas_unset (s : state) : nat :=
  (if storage_ptr s =? 0 then 1%nat else 0%nat) +
  (match storage_ s with None => 1%nat | Some _ => 0%nat end).

(** The pointer a call returned lies at the base of the arena it uses
    (moved by the misalignment or the offset it was asked for). *)
Definition returned_from_arena (c : call) (p : Z) (s' : state) : Prop :=
  match c with
  | CallAligned _ _ => storage_ptr s' <> 0 /\ p = storage_ptr s'
  | CallMisaligned _ _ k =>
      storage_ptr s' <> 0 /\ p = ptr_add (storage_ptr s') k
  | CallShuffled _ _ offset =>
      exists b, storage_ s' = Some b /\ p = ptr_add b offset
  end.


(** ** Following the links *)

(** The line reached from [p] after [j] steps along [nexts[0]]. *)
Fixpoint follow (j : nat) (m : memory) (p : Z) : Z :=
  match j with
  | O => p
  | S j' => follow j' m (load64 m p)
  end.

(** A memory in which the line at 8 points to the line at 16, which
    points to itself. *)
Definition lasso_memory : memory :=
  store64 (store64 (fun _ => 0) 8 16) 16 16.

(** A state of the same run as [other_run_state], with other bytes in
    the memory. *)
Definition earlier_region_state : state :=
  mkState 0 (Some (5 * TWO_MB)) (fun a => a mod 251)
          [(4 * TWO_MB, run_capacity + TWO_MB)] [].

(** ** Wildcard matching *)

From Stdlib Require Ascii String.
Import Ascii.AsciiSyntax String.StringSyntax.
Delimit Scope char_scope with char.
Delimit Scope string_scope with string.

(** How a call ends: it returns, or it throws [std::runtime_error]. *)
Inductive result (A : Type) : Type :=
| Returned (a : A)
| Threw (what : String.string).
Arguments Returned {A} a.
Arguments Threw {A} what.

(** [s] contains the character [c]. *)
Fixpoint occurs (c : Ascii.ascii) (s : String.string) : bool :=
  match s with
  | String.EmptyString => false
  | String.String d s' => Ascii.eqb d c || occurs c s'
  end.

(** The variant built when [NO_CXX11_REGEX] is defined (lines 29-41):
    literal patterns and patterns with one trailing wildcard. *)
Module NoRegex.

(** [s.find(c)] for a character: [None] is [std::string::npos]. *)
Definition find_char (c : Ascii.ascii) (s : String.string) : option nat :=
  String.index 0 (String.String c String.EmptyString) s.

(** [bool wildcard_match(const std::string& target, const std::string&
    pattern)].  [pattern.length() - 1] is only evaluated when a star was
    found, so the pattern is not empty and the subtraction does not wrap. *)
Definition wildcard_match (target pattern : String.string) : result bool :=
  match find_char "*"%char pattern with
  | None => Returned (String.eqb target pattern)
  | Some first_star =>
      if Nat.eqb first_star (String.length pattern - 1) then
        let prefix := String.substring 0 (String.length pattern - 1) pattern in
        Returned (match String.index 0 prefix target with
                  | Some O => true
                  | _ => false
                  end)
      else
        Threw "You tried to use a non-trailing wildcard match, but this feature that requires C++ regex support"%string
  end.

End NoRegex.

(** The variant built on [std::regex] (lines 45-56).  The two
    [std::regex_replace] calls are modelled by what they do to a string:
    the first puts a backslash before every character of the class
    [chars_to_escape], the second replaces every backslash followed by a
    star, leftmost first, by a dot and a star.  [std::regex_match] is
    taken from the environment. *)
Module Regex.

(** The class [chars_to_escape], the bracket expression of the fourteen
    characters - [ ] { } ( ) * + ? . ^ $ | (in the source the closing
    bracket and the caret are written after a backslash, which is not
    itself in the class). *)
Definition chars_to_escape (c : Ascii.ascii) : bool :=
  occurs c "-[]{}()*+?.^$|"%string.

(** [std::string escape_for_regex(const std::string& input)] *)
Fixpoint escape_for_regex (input : String.string) : String.string :=
  match input with
  | String.EmptyString => String.EmptyString
  | String.String c s =>
      if chars_to_escape c
      then String.String "\"%char (String.String c (escape_for_regex s))
      else String.String c (escape_for_regex s)
  end.

(** The second [std::regex_replace] of [wildcard_match]: the regular
    expression matches a backslash followed by a star, the replacement is
    a dot and a star. *)
Fixpoint replace_escaped_stars (s : String.string) : String.string :=
  match s with
  | String.EmptyString => String.EmptyString
  | String.String c r =>
      match r with
      | String.String d r' =>
          if Ascii.eqb c "\"%char && Ascii.eqb d "*"%char
          then String.String "."%char
                 (String.String "*"%char (replace_escaped_stars r'))
          else String.String c (replace_escaped_stars r)
      | String.EmptyString => String.String c String.EmptyString
      end
  end.

(** The regular expression [wildcard_match] builds from a pattern. *)
Definition wildcard_regex (pattern : String.string) : String.string :=
  replace_escaped_stars (escape_for_regex pattern).

(** [bool wildcard_match(const std::string& target, const std::string&
    pattern)] *)
Definition wildcard_match (regex_match : String.string -> String.string -> bool)
    (target pattern : String.string) : bool :=
  let escaped := escape_for_regex pattern in
  let regex := replace_escaped_stars escaped in
  regex_match target regex.

End Regex.

(** What one character of a pattern stands for in the regular
    expression: a star is [.*], a character of the class is itself after a
    backslash, any other character is itself. *)
Definition wildcard_char (c : Ascii.ascii) : String.string :=
  if Ascii.eqb c "*"%char then ".*"%string
  else if Regex.chars_to_escape c
       then String.String "\"%char (String.String c String.EmptyString)
       else String.String c String.EmptyString.

Fixpoint wildcard_chars (pattern : String.string) : String.string :=
  match pattern with
  | String.EmptyString => String.EmptyString
  | String.String c s => String.append (wildcard_char c) (wildcard_chars s)
  end.
(** ** Memory lemmas *)

Lemma store_le_outside n : forall m a v x,
  x < a \/ a + Z.of_nat n <= x -> store_le n m a v x = m x.
Proof.
  induction n as [|n IH]; intros m a v x Hx; cbn [store_le]; [reflexivity|].
  rewrite IH by lia. unfold store_byte.
  destruct (Z.eqb_spec x a); [lia | reflexivity].
Qed.

Lemma load_le_ext n : forall m1 m2 a,
  (forall x, a <= x < a + Z.of_nat n -> m1 x = m2 x) ->
  load_le n m1 a = load_le n m2 a.
Proof.
  induction n as [|n IH]; intros m1 m2 a H; cbn [load_le]; [reflexivity|].
  rewrite (H a) by lia. rewrite (IH m1 m2 (a + 1)); [reflexivity|].
  intros x Hx. apply H. lia.
Qed.

Lemma load_le_store_le n : forall m a v,
  load_le n (store_le n m a v) a = v mod 256 ^ Z.of_nat n.
Proof.
  induction n as [|n IH]; intros m a v.
  - simpl. now rewrite Z.mod_1_r.
  - cbn [load_le store_le]. rewrite IH.
    rewrite store_le_outside by lia.
    unfold store_byte. rewrite Z.eqb_refl.
    rewrite Nat2Z.inj_succ, Z.pow_succ_r by lia.
    rewrite (Z.rem_mul_r v 256 (256 ^ Z.of_nat n)); [reflexivity | lia |].
    apply Z.pow_pos_nonneg; lia.
Qed.

Lemma load64_store64 m a v : load64 (store64 m a v) a = wrap v.
Proof. unfold load64, store64, wrap. now rewrite load_le_store_le. Qed.

Lemma load64_ext m1 m2 a :
  (forall x, a <= x < a + 8 -> m1 x = m2 x) -> load64 m1 a = load64 m2 a.
Proof. intros H. apply load_le_ext. intros x Hx. apply H. lia. Qed.

Lemma store64_outside m a v x :
  x < a \/ a + 8 <= x -> store64 m a v x = m x.
Proof. intros H. apply store_le_outside. lia. Qed.

Lemma fill_nexts_outside k : forall m f v x,
  x < f \/ f + PTR_SIZE * Z.of_nat k <= x -> fill_nexts k m f v x = m x.
Proof.
  unfold PTR_SIZE.
  induction k as [|k IH]; intros m f v x Hx; cbn [fill_nexts]; [reflexivity|].
  rewrite IH by (unfold PTR_SIZE; lia). apply store64_outside. lia.
Qed.

Lemma load64_fill_nexts k m f v :
  (1 <= k)%nat -> load64 (fill_nexts k m f v) f = wrap v.
Proof.
  destruct k as [|k]; [lia|]. intros _. cbn [fill_nexts].
  rewrite <- (load64_store64 m f v). apply load64_ext. intros x Hx.
  apply fill_nexts_outside. unfold PTR_SIZE. lia.
Qed.

Lemma load64_fill_nexts_other k m f v q :
  q + 8 <= f \/ f + PTR_SIZE * Z.of_nat k <= q ->
  load64 (fill_nexts k m f v) q = load64 m q.
Proof.
  intros H. apply load64_ext. intros x Hx. apply fill_nexts_outside. lia.
Qed.

Lemma memset_mem_inside m p c n a :
  p <= a < p + n -> memset_mem m p c n a = c mod 256.
Proof.
  intros H. unfold memset_mem.
  destruct (Z.leb_spec p a); destruct (Z.ltb_spec a (p + n)); simpl; lia.
Qed.

(** ** Arithmetic of the alignment computation *)

Lemma wrap_small x : 0 <= x < 2 ^ 64 -> wrap x = x.
Proof. intros H. unfold wrap. now apply Z.mod_small. Qed.

Lemma wrap_range x : 0 <= wrap x < 2 ^ 64.
Proof. unfold wrap. apply Z.mod_pos_bound. lia. Qed.

Lemma ptr_add_small p k : 0 <= p + k < 2 ^ 64 -> ptr_add p k = p + k.
Proof. apply wrap_small. Qed.

Lemma is_pow2_true a : is_pow2 a = true -> exists k, 0 <= k /\ a = 2 ^ k.
Proof.
  unfold is_pow2. intros H. apply andb_prop in H. destruct H as [_ H].
  apply Z.eqb_eq in H. exists (Z.log2 a). split; [apply Z.log2_nonneg | exact H].
Qed.

Lemma is_pow2_pow2 k : 0 <= k -> is_pow2 (2 ^ k) = true.
Proof.
  intros Hk. unfold is_pow2. rewrite Z.log2_pow2 by exact Hk.
  rewrite Z.eqb_refl, andb_true_r. apply Z.ltb_lt. apply Z.pow_pos_nonneg; lia.
Qed.

Lemma pow2_le_TWO_MB k : 0 <= k -> 2 ^ k <= TWO_MB -> k <= 21.
Proof.
  intros Hk H. change TWO_MB with (2 ^ 21) in H.
  apply (Z.pow_le_mono_r_iff 2); lia.
Qed.

Lemma TWO_MB_multiple k p :
  0 <= k <= 21 -> p mod TWO_MB = 0 -> p mod 2 ^ k = 0.
Proof.
  intros Hk Hp. apply Z.mod_divide in Hp; [|discriminate].
  destruct Hp as [c Hc]. subst p.
  change TWO_MB with (2 ^ 21). replace 21 with ((21 - k) + k) by lia.
  rewrite Z.pow_add_r by lia. rewrite Z.mul_assoc. apply Z.mod_mul.
  apply Z.pow_nonzero; lia.
Qed.

(** Masking with [-2^k] in 64 bits clears the low [k] bits. *)
Lemma land_neg_pow2 x k :
  0 <= x < 2 ^ 64 -> 0 <= k ->
  Z.land x (wrap (- 2 ^ k)) = 2 ^ k * (x / 2 ^ k).
Proof.
  intros Hx Hk. unfold wrap.
  rewrite <- Z.land_ones by lia.
  rewrite Z.land_assoc, (Z.land_comm x), <- Z.land_assoc.
  rewrite (Z.land_ones x) by lia. rewrite (Z.mod_small x) by exact Hx.
  replace (- 2 ^ k) with (Z.lnot (Z.ones k)).
  - rewrite Z.land_comm, <- Z.ldiff_land, Z.ldiff_ones_r by exact Hk.
    rewrite Z.shiftl_mul_pow2, Z.shiftr_div_pow2 by exact Hk. lia.
  - unfold Z.lnot. rewrite Z.ones_equiv. lia.
Qed.

(** Masking with [2^k - 1] keeps the low [k] bits. *)
Lemma land_pow2_pred x k :
  0 <= k <= 64 -> Z.land x (wrap (2 ^ k - 1)) = x mod 2 ^ k.
Proof.
  intros Hk.
  assert (0 < 2 ^ k <= 2 ^ 64).
  { split; [apply Z.pow_pos_nonneg; lia | apply Z.pow_le_mono_r; lia]. }
  rewrite wrap_small by lia.
  replace (2 ^ k - 1) with (Z.ones k) by (rewrite Z.ones_equiv; lia).
  apply Z.land_ones. lia.
Qed.

Lemma aligned_value k p :
  0 <= k -> 0 <= p -> p + 2 ^ k <= 2 ^ 64 ->
  Z.land (wrap (wrap (p + 2 ^ k) - 1)) (wrap (- 2 ^ k)) = align_up (2 ^ k) p.
Proof.
  intros Hk Hp Hle.
  assert (0 < 2 ^ k) by (apply Z.pow_pos_nonneg; lia).
  assert (E : wrap (wrap (p + 2 ^ k) - 1) = p + 2 ^ k - 1).
  { destruct (Z.eq_dec (p + 2 ^ k) (2 ^ 64)) as [e|ne].
    - rewrite e. unfold wrap at 2. rewrite Z.mod_same by lia.
      unfold wrap. change ((0 - 1) mod 2 ^ 64) with (2 ^ 64 - 1). reflexivity.
    - rewrite (wrap_small (p + 2 ^ k)) by lia. apply wrap_small. lia. }
  rewrite E. rewrite land_neg_pow2 by lia. reflexivity.
Qed.

Lemma align_up_bounds a p :
  0 < a -> p <= align_up a p < p + a /\ align_up a p mod a = 0.
Proof.
  intros Ha. unfold align_up.
  pose proof (Z.div_mod (p + a - 1) a ltac:(lia)) as D.
  pose proof (Z.mod_pos_bound (p + a - 1) a Ha) as B.
  split; [lia|]. rewrite Z.mul_comm. apply Z.mod_mul. lia.
Qed.

Lemma align_up_aligned a p : 0 < a -> p mod a = 0 -> align_up a p = p.
Proof.
  intros Ha Hp. unfold align_up.
  apply Z.mod_divide in Hp; [|lia]. destruct Hp as [c Hc]. subst p.
  replace (c * a + a - 1) with (c * a + (a - 1)) by lia.
  rewrite Z.div_add_l by lia. rewrite (Z.div_small (a - 1) a) by lia. lia.
Qed.

(** ** The allocator and the alignment engine *)

Section Properties.

Variable posix_memalign : list (Z * Z) -> Z -> Z -> option Z.
Variable std_shuffle : Z -> list Z -> list Z.
Variable MAX_SHUFFLED_REGION_SIZE : Z.
Variable UB_CACHE_LINE_SIZE : Z.
Variable NEXTS : nat.

Hypothesis posix_memalign_ok : memalign_ok posix_memalign.
Hypothesis std_shuffle_ok : shuffle_ok std_shuffle.
Hypothesis MAX_range : capacity_ok MAX_SHUFFLED_REGION_SIZE.
Hypothesis CacheLine_layout : layout_ok UB_CACHE_LINE_SIZE NEXTS.

Set Default Proof Using "Type".

Local Abbreviation new_huge_ptr := (new_huge_ptr posix_memalign).
Local Abbreviation aligned_ptr := (aligned_ptr posix_memalign).
Local Abbreviation misaligned_ptr := (misaligned_ptr posix_memalign).
Local Abbreviation MAX := MAX_SHUFFLED_REGION_SIZE.
Local Abbreviation LINE := UB_CACHE_LINE_SIZE.
Local Abbreviation shuffled_region_asserts := (shuffled_region_asserts MAX LINE).
Local Abbreviation static_storage_ := (static_storage_ posix_memalign MAX).
Local Abbreviation shuffled_indexes := (shuffled_indexes std_shuffle).
Local Abbreviation line_ptr := (line_ptr LINE).
Local Abbreviation setNexts := (setNexts NEXTS).
Local Abbreviation link_lines := (link_lines LINE NEXTS).
Local Abbreviation link_cycle := (link_cycle LINE NEXTS).
Local Abbreviation linked := (linked LINE).
Local Abbreviation after_static_init := (after_static_init MAX).
Local Abbreviation clflush_loop := (clflush_loop LINE).
Local Abbreviation shuffled_region :=
  (shuffled_region posix_memalign std_shuffle MAX LINE NEXTS).
Local Abbreviation state_ok := (state_ok MAX).

Lemma new_huge_ptr_done size s raw :
  posix_memalign (blocks s) TWO_MB (wrap (size + TWO_MB)) = Some raw ->
  new_huge_ptr size s =
  Done (ptr_add raw TWO_MB, after_new_huge_ptr s raw size).
Proof.
  intros H. unfold Util.new_huge_ptr, bind, call_posix_memalign.
  rewrite H. cbn. unfold after_new_huge_ptr.
  repeat rewrite <- app_assoc. reflexivity.
Qed.

Lemma new_huge_ptr_abort size s :
  posix_memalign (blocks s) TWO_MB (wrap (size + TWO_MB)) = None ->
  new_huge_ptr size s = Abort A_memalign_result.
Proof.
  intros H. unfold Util.new_huge_ptr, bind, call_posix_memalign.
  rewrite H. reflexivity.
Qed.

(** The pointer into a block that does not wrap around. *)
Lemma new_huge_ptr_ptr size bs raw :
  0 <= size -> size + TWO_MB < 2 ^ 64 ->
  posix_memalign bs TWO_MB (wrap (size + TWO_MB)) = Some raw ->
  ptr_add raw TWO_MB = raw + TWO_MB.
Proof using posix_memalign_ok.
  intros Hs Hlt H.
  assert (T : 0 < TWO_MB) by reflexivity.
  destruct (posix_memalign_ok _ _ _ _ T H) as (Hp & Hm & Hfit).
  rewrite wrap_small in Hfit by (unfold TWO_MB in *; lia).
  apply ptr_add_small. unfold TWO_MB in *. lia.
Qed.

(** A block handed out for [size] usable bytes yields a well-formed
    arena pointer. *)
Lemma new_huge_ptr_arena size s raw :
  0 <= size -> size + TWO_MB < 2 ^ 64 ->
  posix_memalign (blocks s) TWO_MB (wrap (size + TWO_MB)) = Some raw ->
  arena_ok (blocks (after_new_huge_ptr s raw size)) (ptr_add raw TWO_MB) size.
Proof using posix_memalign_ok.
  intros Hs Hlt H.
  rewrite (new_huge_ptr_ptr size (blocks s) raw Hs Hlt H).
  assert (T : 0 < TWO_MB) by reflexivity.
  destruct (posix_memalign_ok _ _ _ _ T H) as (Hp & Hm & Hfit).
  rewrite wrap_small in Hfit by (unfold TWO_MB in *; lia).
  unfold arena_ok. repeat split.
  - lia.
  - rewrite <- Z.add_mod_idemp_l by discriminate. rewrite Hm. reflexivity.
  - lia.
  - cbn. apply in_or_app. right. left.
    rewrite wrap_small by (unfold TWO_MB in *; lia). f_equal. lia.
Qed.

Lemma arena_ok_more bs bs' p size :
  arena_ok bs p size -> arena_ok (bs ++ bs') p size.
Proof.
  unfold arena_ok. intros (A & B & C & D). repeat split; try assumption.
  apply in_or_app. now left.
Qed.

(** [align] on a power-of-two alignment: whatever the space and the
    required size, the result is the aligned address. *)
Lemma align_done k n p space s :
  0 <= k -> 0 < p -> p + 2 ^ k <= 2 ^ 64 ->
  align (2 ^ k) n p space s = Done (align_up (2 ^ k) p, s).
Proof.
  intros Hk Hp Hle.
  assert (P : 0 < 2 ^ k) by (apply Z.pow_pos_nonneg; lia).
  assert (K : k <= 64).
  { apply (Z.pow_le_mono_r_iff 2); lia. }
  unfold align. cbv zeta. rewrite aligned_value by lia.
  destruct (align_up_bounds (2 ^ k) p P) as (B & Hm).
  unfold bind, assert, ret.
  destruct (Z.eqb_spec (align_up (2 ^ k) p) 0) as [e|_]; [lia|]. cbn [negb].
  rewrite land_pow2_pred by lia. rewrite Hm. reflexivity.
Qed.

(** Whenever [align] returns, it returns the address [aligned], which is
    [p] moved up by the padding, and leaves the state as it was. *)
Lemma align_returns_aligned a n p space s r s' :
  0 <= p < 2 ^ 64 ->
  align a n p space s = Done (r, s') ->
  r = align_aligned a p /\ r = ptr_add p (align_padding a p) /\ s' = s.
Proof.
  intros Hp H. unfold align in H. cbv zeta in H.
  fold (align_aligned a p) in H.
  unfold bind, assert, ret in H.
  destruct (negb (align_aligned a p =? 0)); [|discriminate].
  destruct (Z.land (align_aligned a p) (wrap (a - 1)) =? 0); [|discriminate].
  injection H as <- <-. split; [reflexivity|]. split; [|reflexivity].
  assert (R : 0 <= align_aligned a p < 2 ^ 64).
  { unfold align_aligned.
    assert (W : forall x, 0 <= wrap x < 2 ^ 64)
      by (intros x; unfold wrap; apply Z.mod_pos_bound; reflexivity).
    pose proof (W (wrap (p + a) - 1)) as W1. pose proof (W (- a)) as W2.
    split.
    - apply Z.land_nonneg. left. lia.
    - destruct (Z.eq_dec (wrap (wrap (p + a) - 1)) 0) as [e|ne].
      + rewrite e, Z.land_0_l. reflexivity.
      + apply Z.log2_lt_cancel.
        eapply Z.le_lt_trans; [apply Z.log2_land; lia|].
        apply Z.min_lt_iff. left.
        change (Z.log2 (2 ^ 64)) with 64.
        apply Z.log2_lt_pow2; lia. }
  unfold ptr_add, align_padding, wrap.
  rewrite Zplus_mod_idemp_r.
  replace (p + (align_aligned a p - p)) with (align_aligned a p) by lia.
  now rewrite Z.mod_small.
Qed.

Lemma aligned_ptr_asserts_pass a n :
  n <= STORAGE_SIZE -> is_pow2 a = true -> a <= TWO_MB ->
  forall s,
    aligned_ptr a n s =
    (p <- get_storage_ptr ;;
     (if p =? 0
      then (q <- new_huge_ptr STORAGE_SIZE ;; set_storage_ptr q)
      else ret tt) ;;
     p <- get_storage_ptr ;;
     align a n p STORAGE_SIZE) s.
Proof.
  intros Hn Ha Hle s. unfold Util.aligned_ptr.
  unfold bind at 1. unfold assert at 1.
  apply Z.leb_le in Hn. rewrite Hn.
  unfold bind at 1. unfold assert at 1. rewrite Ha.
  unfold bind at 1. unfold assert at 1.
  apply Z.leb_le in Hle. rewrite Hle. reflexivity.
Qed.

(** A call that finds the arena in place returns its base and changes
    nothing. *)
Lemma aligned_ptr_reuse a n s :
  n <= STORAGE_SIZE -> is_pow2 a = true -> a <= TWO_MB ->
  storage_ptr s <> 0 ->
  arena_ok (blocks s) (storage_ptr s) STORAGE_SIZE ->
  aligned_ptr a n s = Done (storage_ptr s, s).
Proof.
  intros Hn Ha Hle Hnz (Hp & Hm & Hfit & _).
  rewrite aligned_ptr_asserts_pass by assumption.
  destruct (is_pow2_true a Ha) as (k & Hk & ->).
  pose proof (pow2_le_TWO_MB k Hk Hle) as K.
  unfold bind, get_storage_ptr, ret.
  destruct (Z.eqb_spec (storage_ptr s) 0) as [e|_]; [contradiction|].
  rewrite align_done; try lia.
  - rewrite align_up_aligned; [reflexivity | apply Z.pow_pos_nonneg; lia |].
    apply TWO_MB_multiple; [lia | exact Hm].
  - unfold STORAGE_SIZE, TWO_MB in *. lia.
Qed.

(** The first call creates the arena and returns its base. *)
Lemma aligned_ptr_first a n s raw :
  n <= STORAGE_SIZE -> is_pow2 a = true -> a <= TWO_MB ->
  storage_ptr s = 0 ->
  posix_memalign (blocks s) TWO_MB (wrap (STORAGE_SIZE + TWO_MB)) = Some raw ->
  aligned_ptr a n s = Done (ptr_add raw TWO_MB, after_first_aligned_ptr s raw).
Proof using posix_memalign_ok.
  intros Hn Ha Hle Hz Hraw.
  rewrite aligned_ptr_asserts_pass by assumption.
  pose proof (new_huge_ptr_arena STORAGE_SIZE s raw ltac:(discriminate)
                ltac:(reflexivity) Hraw) as (Hp & Hm & Hfit & _).
  destruct (is_pow2_true a Ha) as (k & Hk & ->).
  pose proof (pow2_le_TWO_MB k Hk Hle) as K.
  unfold bind at 1. unfold get_storage_ptr at 1. rewrite Hz. cbn [Z.eqb].
  unfold bind at 1. unfold bind at 1.
  rewrite (new_huge_ptr_done _ _ _ Hraw).
  unfold set_storage_ptr. unfold bind, get_storage_ptr.
  cbn [storage_ptr].
  fold (after_first_aligned_ptr s raw).
  rewrite align_done; try lia.
  - rewrite align_up_aligned; [reflexivity | apply Z.pow_pos_nonneg; lia |].
    apply TWO_MB_multiple; [lia | exact Hm].
  - unfold STORAGE_SIZE, TWO_MB in *. lia.
Qed.

Lemma aligned_ptr_first_abort a n s :
  n <= STORAGE_SIZE -> is_pow2 a = true -> a <= TWO_MB ->
  storage_ptr s = 0 ->
  posix_memalign (blocks s) TWO_MB (wrap (STORAGE_SIZE + TWO_MB)) = None ->
  aligned_ptr a n s = Abort A_memalign_result.
Proof.
  intros Hn Ha Hle Hz Hraw.
  rewrite aligned_ptr_asserts_pass by assumption.
  unfold bind at 1. unfold get_storage_ptr at 1. rewrite Hz. cbn [Z.eqb].
  unfold bind at 1. unfold bind at 1.
  rewrite (new_huge_ptr_abort _ _ Hraw). reflexivity.
Qed.

(** ** Linking the lines *)

Lemma LINE_bounds : 8 <= LINE /\ 8 * Z.of_nat NEXTS <= LINE.
Proof using CacheLine_layout.
  destruct CacheLine_layout as [H1 H2]. unfold PTR_SIZE in H2. lia.
Qed.

Lemma line_ptr_small st i :
  line_in_space LINE st i -> line_ptr st i = st + LINE * i.
Proof using CacheLine_layout.
  intros [H1 H2]. pose proof LINE_bounds. unfold Util.line_ptr.
  apply ptr_add_small. lia.
Qed.

Lemma line_ptr_inj st i j :
  line_in_space LINE st i -> line_in_space LINE st j ->
  line_ptr st i = line_ptr st j -> i = j.
Proof using CacheLine_layout.
  intros Hi Hj. rewrite (line_ptr_small st i Hi), (line_ptr_small st j Hj).
  pose proof LINE_bounds. intros H'. nia.
Qed.

Lemma line_ptr_range st i : 0 <= line_ptr st i < 2 ^ 64.
Proof. apply wrap_range. Qed.

Lemma load64_setNexts_same m p v :
  0 <= v < 2 ^ 64 -> load64 (setNexts m p v) p = v.
Proof using CacheLine_layout.
  intros Hv. unfold Util.setNexts.
  rewrite load64_fill_nexts by apply (proj1 CacheLine_layout).
  now apply wrap_small.
Qed.

Lemma load64_setNexts_other st m i j v :
  line_in_space LINE st i -> line_in_space LINE st j -> i <> j ->
  load64 (setNexts m (line_ptr st i) v) (line_ptr st j) =
  load64 m (line_ptr st j).
Proof using CacheLine_layout.
  intros Hi Hj Hij.
  rewrite (line_ptr_small st i Hi), (line_ptr_small st j Hj).
  unfold Util.setNexts. apply load64_fill_nexts_other.
  pose proof LINE_bounds. unfold PTR_SIZE.
  destruct (Z.lt_ge_cases j i); [left | right]; nia.
Qed.

Lemma link_lines_fst st : forall rest i0 m,
  fst (link_lines st rest (line_ptr st i0) m) =
  line_ptr st (nth (length rest) (i0 :: rest) 0).
Proof.
  induction rest as [|i rest IH]; intros i0 m; [reflexivity|].
  cbn [Util.link_lines]. rewrite IH. reflexivity.
Qed.

Lemma link_lines_other st j : forall rest i0 m,
  (forall i, In i (i0 :: rest) -> line_in_space LINE st i) ->
  line_in_space LINE st j ->
  ~ In j (i0 :: rest) ->
  load64 (snd (link_lines st rest (line_ptr st i0) m)) (line_ptr st j) =
  load64 m (line_ptr st j).
Proof using CacheLine_layout.
  induction rest as [|i rest IH]; intros i0 m Hv Hvj Hj; [reflexivity|].
  cbn [Util.link_lines]. rewrite IH.
  - apply load64_setNexts_other; [apply Hv; now left | exact Hvj |].
    intros ->. apply Hj. now left.
  - intros x Hx. apply Hv. now right.
  - exact Hvj.
  - intros H. apply Hj. now right.
Qed.

Lemma link_lines_chain st : forall rest i0 m t,
  NoDup (i0 :: rest) ->
  (forall i, In i (i0 :: rest) -> line_in_space LINE st i) ->
  (t < length rest)%nat ->
  load64 (snd (link_lines st rest (line_ptr st i0) m))
         (line_ptr st (nth t (i0 :: rest) 0)) =
  line_ptr st (nth t rest 0).
Proof using CacheLine_layout.
  induction rest as [|i rest IH]; intros i0 m t Hnd Hv Ht; [simpl in Ht; lia|].
  cbn [Util.link_lines]. destruct t as [|t].
  - cbn [nth]. rewrite link_lines_other.
    + apply load64_setNexts_same. apply line_ptr_range.
    + intros x Hx. apply Hv. now right.
    + apply Hv. now left.
    + now inversion Hnd.
  - change (nth (S t) (i0 :: i :: rest) 0) with (nth t (i :: rest) 0).
    change (nth (S t) (i :: rest) 0) with (nth t rest 0).
    apply IH.
    + now inversion Hnd.
    + intros x Hx. apply Hv. now right.
    + simpl in Ht. lia.
Qed.

(** After the loop and the closing link, the lines form a ring in the
    order of the index vector. *)
Lemma link_cycle_linked st l m :
  l <> [] -> NoDup l ->
  (forall i, In i l -> line_in_space LINE st i) ->
  linked st (link_cycle st l m) l.
Proof using CacheLine_layout.
  destruct l as [|i0 rest]; [congruence|]. intros _ Hnd Hv t Ht.
  unfold Util.link_cycle. cbn [tl].
  change (nth 0 (i0 :: rest) 0) with i0.
  pose proof (link_lines_fst st rest i0 m) as Hf.
  pose proof (link_lines_chain st rest i0 m) as Hc.
  destruct (link_lines st rest (line_ptr st i0) m) as [p m1].
  cbn [fst snd] in Hf, Hc. subst p.
  cbn [length] in Ht |- *.
  destruct (Nat.eq_dec t (length rest)) as [->|Hne].
  - rewrite load64_setNexts_same by apply line_ptr_range.
    replace (length rest + 1)%nat with (S (length rest)) by lia.
    rewrite Nat.Div0.mod_same. reflexivity.
  - rewrite load64_setNexts_other.
    + rewrite Hc; try assumption; try lia.
      rewrite Nat.mod_small by lia.
      replace (t + 1)%nat with (S t) by lia. reflexivity.
    + apply Hv. apply nth_In. cbn [length]. lia.
    + apply Hv. apply nth_In. cbn [length]. lia.
    + intros E. apply Hne. symmetry.
      apply (proj1 (NoDup_nth (i0 :: rest) 0) Hnd); cbn [length];
        [lia | lia | exact E].
Qed.

(** ** Walking the ring *)

Lemma rot_inj (n c t1 t2 : nat) :
  (t1 < n)%nat -> (t2 < n)%nat ->
  ((c + t1) mod n = (c + t2) mod n)%nat -> t1 = t2.
Proof.
  intros H1 H2 E.
  pose proof (Nat.div_mod_eq (c + t1) n) as D1.
  pose proof (Nat.div_mod_eq (c + t2) n) as D2.
  rewrite E in D1.
  destruct (Nat.lt_total ((c + t1) / n) ((c + t2) / n)) as [L|[L|L]]; nia.
Qed.

Lemma walk_linked st m l :
  linked st m l ->
  forall j k, (k < length l)%nat ->
  walk j m (line_ptr st (nth k l 0)) =
  map (fun t => line_ptr st (nth ((k + 1 + t) mod length l) l 0)) (seq 0 j).
Proof.
  intros Hl. induction j as [|j IH]; intros k Hk; [reflexivity|].
  cbn [walk]. rewrite Hl by exact Hk.
  assert (Hn : (length l <> 0)%nat) by lia.
  rewrite (IH ((k + 1) mod length l)%nat)
    by (apply Nat.mod_upper_bound; exact Hn).
  cbn [seq map]. rewrite Nat.add_0_r. f_equal.
  rewrite <- seq_shift, map_map. apply map_ext. intros t.
  replace ((k + 1) mod length l + 1 + t)%nat
    with (((k + 1) mod length l) + (1 + t))%nat by lia.
  rewrite Nat.Div0.add_mod_idemp_l. reflexivity.
Qed.

Lemma map_nth_seq (l : list Z) :
  map (fun t => nth t l 0) (seq 0 (length l)) = l.
Proof.
  induction l as [|x l IH]; [reflexivity|].
  cbn [length seq map nth]. f_equal.
  rewrite <- seq_shift, map_map. exact IH.
Qed.

Lemma rot_seq_perm (n c : nat) :
  Permutation (map (fun t => (c + t) mod n)%nat (seq 0 n)) (seq 0 n).
Proof.
  destruct n as [|n]; [constructor|].
  apply NoDup_Permutation_bis.
  - apply Finite.Injective_map_NoDup_in; [| apply seq_NoDup].
    intros x y Hx Hy. apply in_seq in Hx, Hy. apply rot_inj; lia.
  - rewrite length_map. apply Nat.le_refl.
  - intros x Hx. apply in_map_iff in Hx. destruct Hx as (t & <- & _).
    apply in_seq. split; [lia|]. cbn [Nat.add].
    apply Nat.mod_upper_bound. lia.
Qed.

(** Following [nexts[0]] as many times as there are lines, from any line
    of the ring, enumerates the lines of the ring. *)
Lemma walk_ring_perm st m l k :
  linked st m l -> (k < length l)%nat ->
  Permutation (walk (length l) m (line_ptr st (nth k l 0)))
              (map (line_ptr st) l).
Proof.
  intros Hl Hk. rewrite (walk_linked st m l Hl _ k Hk).
  replace (map (line_ptr st) l)
    with (map (fun i => line_ptr st (nth i l 0)) (seq 0 (length l)))
    by (rewrite <- (map_map (fun i => nth i l 0) (line_ptr st));
        now rewrite map_nth_seq).
  replace (map (fun t => line_ptr st (nth ((k + 1 + t) mod length l) l 0))
               (seq 0 (length l)))
    with (map (fun i => line_ptr st (nth i l 0))
              (map (fun t => ((k + 1) + t) mod length l)%nat
                   (seq 0 (length l))))
    by now rewrite map_map.
  apply Permutation_map. apply rot_seq_perm.
Qed.

(** ... and is back at the starting line exactly at the last step. *)
Lemma walk_ring_nth st m l k t :
  linked st m l -> (k < length l)%nat -> (t < length l)%nat ->
  nth t (walk (length l) m (line_ptr st (nth k l 0))) 0 =
  line_ptr st (nth ((k + 1 + t) mod length l) l 0).
Proof.
  intros Hl Hk Ht. rewrite (walk_linked st m l Hl _ k Hk).
  rewrite (nth_indep _ 0 (line_ptr st (nth ((k + 1 + 0) mod length l) l 0)))
    by (rewrite length_map, length_seq; exact Ht).
  rewrite (map_nth (fun t => line_ptr st (nth ((k + 1 + t) mod length l) l 0))
                   (seq 0 (length l)) 0%nat t).
  rewrite seq_nth by exact Ht. reflexivity.
Qed.

Lemma ring_back (n k : nat) : (k < n)%nat -> ((k + 1 + (n - 1)) mod n = k)%nat.
Proof.
  intros Hk. replace (k + 1 + (n - 1))%nat with (k + 1 * n)%nat by lia.
  rewrite Nat.Div0.mod_add. apply Nat.mod_small. exact Hk.
Qed.

Lemma ring_not_back (n k t : nat) :
  (k < n)%nat -> (t + 1 < n)%nat -> ((k + 1 + t) mod n <> k)%nat.
Proof.
  intros Hk Ht E.
  assert (E' : ((k + (1 + t)) mod n = (k + 0) mod n)%nat).
  { rewrite Nat.add_0_r, (Nat.mod_small k n) by exact Hk.
    rewrite Nat.add_assoc. exact E. }
  apply rot_inj in E'; lia.
Qed.

(** [count] on a ring of [n] lines returns [n]. *)
Lemma count_loop_ring st m l k :
  linked st m l -> NoDup l -> (k < length l)%nat ->
  (forall i, In i l -> line_in_space LINE st i) ->
  Z.of_nat (length l) < 2 ^ 64 ->
  forall fuel j,
    (j < length l)%nat -> (length l - j <= fuel)%nat ->
    count_loop fuel m (line_ptr st (nth k l 0))
               (line_ptr st (nth ((k + j) mod length l) l 0)) (Z.of_nat j) =
    Some (Z.of_nat (length l)).
Proof using CacheLine_layout.
  intros Hl Hnd Hk Hv Hn.
  assert (N : (length l <> 0)%nat) by lia.
  induction fuel as [|fuel IH]; intros j Hj Hf; [lia|].
  cbn [count_loop]. cbv zeta.
  rewrite !Hl by (apply Nat.mod_upper_bound; exact N).
  rewrite Nat.Div0.add_mod_idemp_l.
  rewrite wrap_small by lia.
  replace (Z.of_nat j + 1) with (Z.of_nat (S j)) by lia.
  replace (k + j + 1)%nat with (k + S j)%nat by lia.
  destruct (Nat.eq_dec (S j) (length l)) as [E|E].
  - rewrite E. replace (k + length l)%nat with (k + 1 * length l)%nat by lia.
    rewrite Nat.Div0.mod_add, Nat.mod_small by exact Hk.
    rewrite Z.eqb_refl. reflexivity.
  - destruct (Z.eqb_spec (line_ptr st (nth ((k + S j) mod length l) l 0))
                         (line_ptr st (nth k l 0))) as [e|_].
    + exfalso.
      apply line_ptr_inj in e;
        [| apply Hv, nth_In, Nat.mod_upper_bound; exact N
         | apply Hv, nth_In; exact Hk].
      apply (proj1 (NoDup_nth l 0) Hnd) in e;
        [| apply Nat.mod_upper_bound; exact N | exact Hk].
      apply (ring_not_back (length l) k j); try lia.
      rewrite <- e. f_equal. lia.
    + cbn [negb]. apply IH; lia.
Qed.

Lemma count_ring st m l k fuel :
  linked st m l -> NoDup l -> (k < length l)%nat ->
  (forall i, In i l -> line_in_space LINE st i) ->
  Z.of_nat (length l) < 2 ^ 64 -> (length l <= fuel)%nat ->
  count fuel m (line_ptr st (nth k l 0)) = Some (Z.of_nat (length l)).
Proof using CacheLine_layout.
  intros Hl Hnd Hk Hv Hn Hf. unfold count.
  pose proof (count_loop_ring st m l k Hl Hnd Hk Hv Hn fuel 0%nat) as H.
  rewrite Nat.add_0_r, Nat.mod_small in H by exact Hk.
  apply H; lia.
Qed.

(** ** The shuffled region builder *)

Lemma iota_length n : length (iota n) = Z.to_nat n.
Proof. unfold iota. now rewrite length_map, length_seq. Qed.

Lemma iota_In n x : In x (iota n) <-> 0 <= x < n.
Proof.
  unfold iota. rewrite in_map_iff. split.
  - intros (t & <- & Ht). apply in_seq in Ht. lia.
  - intros Hx. exists (Z.to_nat x). split; [lia|]. apply in_seq. lia.
Qed.

Lemma iota_NoDup n : NoDup (iota n).
Proof.
  unfold iota. apply Finite.Injective_map_NoDup_in; [| apply seq_NoDup].
  intros x y _ _ H. lia.
Qed.

Lemma shuffled_indexes_perm n : Permutation (iota n) (shuffled_indexes n).
Proof using std_shuffle_ok. apply std_shuffle_ok. Qed.

Lemma shuffled_indexes_length n : length (shuffled_indexes n) = Z.to_nat n.
Proof using std_shuffle_ok.
  rewrite <- (Permutation_length (shuffled_indexes_perm n)). apply iota_length.
Qed.

Lemma shuffled_indexes_NoDup n : NoDup (shuffled_indexes n).
Proof using std_shuffle_ok.
  apply (Permutation_NoDup (shuffled_indexes_perm n)). apply iota_NoDup.
Qed.

Lemma shuffled_indexes_In n x : In x (shuffled_indexes n) <-> 0 <= x < n.
Proof using std_shuffle_ok.
  rewrite <- iota_In. split; apply Permutation_in;
    [symmetry |]; apply shuffled_indexes_perm.
Qed.

Lemma index_of_nth x : forall l,
  In x l -> (index_of x l < length l)%nat /\ nth (index_of x l) l 0 = x.
Proof.
  induction l as [|y l IH]; intros H; [destruct H|].
  cbn [index_of]. destruct (Z.eqb_spec y x) as [->|Hne].
  - split; [cbn; lia | reflexivity].
  - destruct H as [H|H]; [contradiction|].
    destruct (IH H) as [L E]. split; [cbn; lia | exact E].
Qed.

(** Line 0, the line the region descriptor points to, is somewhere in the
    index vector. *)
Lemma shuffled_indexes_zero n :
  0 < n ->
  (index_of 0 (shuffled_indexes n) < length (shuffled_indexes n))%nat /\
  nth (index_of 0 (shuffled_indexes n)) (shuffled_indexes n) 0 = 0.
Proof using std_shuffle_ok.
  intros Hn. apply index_of_nth. apply shuffled_indexes_In. lia.
Qed.

Lemma size_lines_exact size :
  0 < size -> size mod LINE = 0 ->
  0 < size / LINE /\ LINE * (size / LINE) = size.
Proof using CacheLine_layout.
  intros Hs Hm. pose proof LINE_bounds as [L _].
  pose proof (Z.div_mod size LINE ltac:(lia)) as D. rewrite Hm in D.
  split; [|lia]. nia.
Qed.

Lemma shuffled_region_asserts_pass size offset s :
  0 <= offset -> 0 < size -> size mod LINE = 0 -> size + offset <= MAX ->
  shuffled_region_asserts size offset s = Done (size / LINE, s).
Proof using MAX_range CacheLine_layout.
  intros Ho Hs Hm Hc. destruct MAX_range as [M0 M1].
  destruct (size_lines_exact size Hs Hm) as [Hl _].
  unfold Util.shuffled_region_asserts, bind, assert, ret.
  rewrite wrap_small by (unfold TWO_MB in M1; lia).
  apply Z.leb_le in Hc. rewrite Hc.
  apply Z.eqb_eq in Hm. rewrite Hm.
  apply Z.ltb_lt in Hl. rewrite Hl. reflexivity.
Qed.

Lemma static_storage_reuse s b :
  storage_ s = Some b -> static_storage_ s = Done (b, s).
Proof. intros H. unfold Util.static_storage_. now rewrite H. Qed.

Lemma static_storage_first s raw :
  storage_ s = None ->
  posix_memalign (blocks s) TWO_MB (wrap (MAX + TWO_MB)) = Some raw ->
  static_storage_ s = Done (ptr_add raw TWO_MB, after_static_init s raw).
Proof.
  intros H Hraw. unfold Util.static_storage_. rewrite H.
  unfold bind. rewrite (new_huge_ptr_done _ _ _ Hraw). reflexivity.
Qed.

Lemma static_storage_abort s :
  storage_ s = None ->
  posix_memalign (blocks s) TWO_MB (wrap (MAX + TWO_MB)) = None ->
  static_storage_ s = Abort A_memalign_result.
Proof.
  intros H Hraw. unfold Util.static_storage_. rewrite H.
  unfold bind. rewrite (new_huge_ptr_abort _ _ Hraw). reflexivity.
Qed.

Lemma clflush_loop_done : forall fuel k p e s,
  (k <= fuel)%nat -> 0 <= p -> e < 2 ^ 64 -> e = p + LINE * Z.of_nat k ->
  exists evs,
    clflush_loop fuel p e s =
    Done (tt, mkState (storage_ptr s) (storage_ s) (mem s) (blocks s)
                      (events s ++ evs)).
Proof using CacheLine_layout.
  pose proof LINE_bounds as [L _].
  induction fuel as [|fuel IH]; intros k p e s Hk Hp He E.
  - exists []. cbn [Util.clflush_loop].
    destruct (Z.ltb_spec p e); [nia|]. rewrite app_nil_r. now destruct s.
  - cbn [Util.clflush_loop]. destruct (Z.ltb_spec p e).
    + unfold bind, emit. destruct k as [|k]; [nia|].
      rewrite ptr_add_small by nia.
      destruct (IH k (p + LINE) e
                  (mkState (storage_ptr s) (storage_ s) (mem s) (blocks s)
                           (events s ++ [EvClflush p]))) as [evs Ev];
        [lia | lia | lia | nia |].
      rewrite Ev. cbn. exists (EvClflush p :: evs). now rewrite <- app_assoc.
    + exists []. rewrite app_nil_r. now destruct s.
Qed.

Lemma region_lines_in_space b size offset i :
  0 < b -> b + MAX < 2 ^ 64 -> 0 <= offset -> 0 < size ->
  size mod LINE = 0 -> size + offset <= MAX ->
  0 <= i < size / LINE ->
  line_in_space LINE (b + offset) i.
Proof using CacheLine_layout.
  intros Hb Hfit Ho Hs Hm Hc Hi. pose proof LINE_bounds as [L _].
  destruct (size_lines_exact size Hs Hm) as [_ E].
  unfold line_in_space. nia.
Qed.

(** The builder, once the arena at [b] is in place (state [s1]). *)
Lemma shuffled_region_from_arena fuel size offset s b s1 :
  0 <= offset -> 0 < size -> size mod LINE = 0 -> size + offset <= MAX ->
  static_storage_ s = Done (b, s1) -> 0 < b -> b + MAX < 2 ^ 64 ->
  (Z.to_nat (size / LINE) <= fuel)%nat ->
  let storage := b + offset in
  let indexes := shuffled_indexes (size / LINE) in
  let m := link_cycle storage indexes (memset_mem (mem s1) storage (-1) size) in
  linked storage m indexes /\
  count fuel m storage = Some (size / LINE) /\
  exists evs,
    shuffled_region fuel size offset s =
    Done (mkRegion size storage,
          mkState (storage_ptr s1) (storage_ s1) m (blocks s1)
                  (events s1 ++ evs)).
Proof using std_shuffle_ok MAX_range CacheLine_layout.
  intros Ho Hs Hm Hc Hst Hb Hfit Hfuel storage indexes m.
  pose proof LINE_bounds as [L _].
  destruct (size_lines_exact size Hs Hm) as [Hn E].
  assert (Hlen : length indexes = Z.to_nat (size / LINE))
    by apply shuffled_indexes_length.
  assert (Hv : forall i, In i indexes -> line_in_space LINE storage i).
  { intros i Hi. apply shuffled_indexes_In in Hi.
    apply (region_lines_in_space b size offset i); assumption. }
  assert (Hlinked : linked storage m indexes).
  { apply link_cycle_linked.
    - intros e. rewrite e in Hlen. simpl in Hlen. lia.
    - apply shuffled_indexes_NoDup.
    - exact Hv. }
  assert (Hcount : count fuel m storage = Some (size / LINE)).
  { destruct (shuffled_indexes_zero (size / LINE) Hn) as (Hk & Hk0).
    fold indexes in Hk, Hk0. set (k := index_of 0 indexes) in Hk, Hk0.
    assert (Est : storage = line_ptr storage (nth k indexes 0)).
    { rewrite line_ptr_small by (apply Hv, nth_In; exact Hk).
      rewrite Hk0. lia. }
    rewrite Est at 1.
    rewrite (count_ring _ m indexes k fuel Hlinked).
    - rewrite Hlen. f_equal. lia.
    - apply shuffled_indexes_NoDup.
    - exact Hk.
    - exact Hv.
    - rewrite Hlen. destruct MAX_range. nia.
    - lia. }
  split; [exact Hlinked|]. split; [exact Hcount|].
  unfold Util.shuffled_region.
  unfold bind at 1. rewrite shuffled_region_asserts_pass by assumption.
  unfold bind at 1. rewrite Hst.
  rewrite (ptr_add_small b offset) by lia. fold storage.
  rewrite (ptr_add_small storage size) by (unfold storage; lia).
  unfold bind at 1. unfold memset at 1.
  unfold bind at 1. unfold emit at 1.
  unfold bind at 1. unfold get_mem at 1. cbn [mem].
  unfold bind at 1. unfold set_mem at 1. cbn [storage_ptr storage_ blocks events].
  unfold bind at 1. unfold get_mem at 1. cbn [mem].
  fold indexes. fold m. rewrite Hcount.
  unfold bind at 1. unfold assert at 1. rewrite Z.eqb_refl.
  unfold bind at 1.
  match goal with |- context [clflush_loop fuel storage (storage + size) ?s0] =>
    destruct (clflush_loop_done fuel (Z.to_nat (size / LINE)) storage
                (storage + size) s0) as [evs Ev];
      [exact Hfuel | unfold storage; lia | unfold storage; lia | nia |];
      rewrite Ev
  end.
  cbn [storage_ptr storage_ mem blocks events].
  unfold bind, emit, ret. cbn [storage_ptr storage_ mem blocks events].
  eexists. rewrite <- !app_assoc. reflexivity.
Qed.

(** Everything a walk of [length l] steps from line 0 shows, on a ring
    built from an index vector that is a permutation of [iota n]. *)
Lemma ring_from_line_zero st m n l :
  linked st m l -> Permutation (iota n) l -> 0 < n ->
  (forall i, 0 <= i < n -> line_in_space LINE st i) ->
  let w := walk (Z.to_nat n) m st in
  Permutation w (map (line_ptr st) (iota n)) /\
  NoDup w /\
  nth (Z.to_nat n - 1) w 0 = st /\
  (forall t, (t < Z.to_nat n - 1)%nat -> nth t w 0 <> st).
Proof using CacheLine_layout.
  intros Hl Hp Hn Hv w.
  assert (Hlen : length l = Z.to_nat n)
    by (rewrite <- (Permutation_length Hp); apply iota_length).
  assert (Hnd : NoDup l) by (apply (Permutation_NoDup Hp), iota_NoDup).
  assert (Hvl : forall i, In i l -> line_in_space LINE st i).
  { intros i Hi. apply Hv, iota_In.
    exact (Permutation_in _ (Permutation_sym Hp) Hi). }
  assert (H0 : In 0 l) by (apply (Permutation_in _ Hp), iota_In; lia).
  destruct (In_nth l 0 0 H0) as (k & Hk & Hk0).
  assert (Est : st = line_ptr st (nth k l 0)).
  { rewrite line_ptr_small by (apply Hvl, nth_In; exact Hk).
    rewrite Hk0. lia. }
  assert (Hw : Permutation w (map (line_ptr st) (iota n))).
  { unfold w. rewrite <- Hlen. rewrite Est at 1.
    rewrite (walk_ring_perm st m l k Hl Hk).
    apply Permutation_map. symmetry. exact Hp. }
  split; [exact Hw|]. split; [|split].
  - apply (Permutation_NoDup (Permutation_sym Hw)).
    apply Finite.Injective_map_NoDup_in; [| apply iota_NoDup].
    intros x y Hx Hy. apply line_ptr_inj; apply Hv, iota_In; assumption.
  - unfold w. rewrite <- Hlen. rewrite Est at 1.
    rewrite walk_ring_nth by (assumption || lia).
    rewrite ring_back by exact Hk. now rewrite <- Est.
  - intros t Ht. unfold w. rewrite <- Hlen in Ht |- *. rewrite Est at 1.
    rewrite walk_ring_nth by (assumption || lia).
    rewrite Est at 2. intros e.
    apply line_ptr_inj in e;
      [| apply Hvl, nth_In, Nat.mod_upper_bound; lia
       | apply Hvl, nth_In; exact Hk].
    apply (proj1 (NoDup_nth l 0) Hnd) in e;
      [| apply Nat.mod_upper_bound; lia | exact Hk].
    apply (ring_not_back (length l) k t); [exact Hk | lia | exact e].
Qed.

(** The line indexes of a walk from line 0 depend on the index vector
    only. *)
Lemma walk_indexes_ring_order st m l j :
  linked st m l -> In 0 l ->
  (forall i, In i l -> line_in_space LINE st i) ->
  map (line_index LINE st) (walk j m st) = ring_order l j.
Proof using CacheLine_layout.
  intros Hl H0 Hv. pose proof LINE_bounds as [L _].
  destruct (index_of_nth 0 l H0) as [Hk Hk0].
  assert (N : (length l <> 0)%nat) by lia.
  assert (Est : st = line_ptr st (nth (index_of 0 l) l 0)).
  { rewrite line_ptr_small by (apply Hv, nth_In; exact Hk).
    rewrite Hk0. lia. }
  rewrite Est at 2.
  rewrite (walk_linked st m l Hl j _ Hk), map_map.
  unfold ring_order. apply map_ext. intros t.
  rewrite line_ptr_small
    by (apply Hv, nth_In, Nat.mod_upper_bound; exact N).
  unfold line_index.
  match goal with
  | |- (st + LINE * ?x - st) / LINE = _ =>
      replace (st + LINE * x - st) with (x * LINE) by lia
  end.
  apply Z.div_mul. lia.
Qed.

(** The arena [static_storage_] yields, from a well-formed state. *)
Lemma static_storage_done s :
  state_ok s ->
  (storage_ s = None ->
   posix_memalign (blocks s) TWO_MB (wrap (MAX + TWO_MB)) <> None) ->
  exists b s1,
    static_storage_ s = Done (b, s1) /\
    arena_ok (blocks s1) b MAX /\
    storage_ s1 = Some b /\
    storage_ptr s1 = storage_ptr s /\
    (forall b0, storage_ s = Some b0 -> b0 = b /\ s1 = s) /\
    (storage_ s = None ->
     exists raw,
       posix_memalign (blocks s) TWO_MB (wrap (MAX + TWO_MB)) = Some raw /\
       b = ptr_add raw TWO_MB /\ s1 = after_static_init s raw).
Proof using posix_memalign_ok MAX_range.
  intros [_ Hok] Halloc. destruct MAX_range as [M0 M1].
  destruct (storage_ s) as [b|] eqn:E.
  - exists b, s. rewrite (static_storage_reuse s b E).
    split; [reflexivity|]. split; [now apply Hok|].
    split; [exact E|]. split; [reflexivity|]. split.
    + intros b0 [= ->]. now split.
    + discriminate.
  - destruct (posix_memalign (blocks s) TWO_MB (wrap (MAX + TWO_MB)))
      as [raw|] eqn:R; [| now exfalso; apply Halloc].
    exists (ptr_add raw TWO_MB), (after_static_init s raw).
    rewrite (static_storage_first s raw E R).
    split; [reflexivity|].
    split; [apply (new_huge_ptr_arena MAX s raw M0 M1 R)|].
    split; [reflexivity|]. split; [reflexivity|]. split.
    + discriminate.
    + intros _. exists raw. now repeat split.
Qed.

(** ** Calls of [aligned_ptr] from a well-formed state *)

Lemma state_ok_after_first_aligned_ptr s raw :
  state_ok s -> storage_ptr s = 0 ->
  posix_memalign (blocks s) TWO_MB (wrap (STORAGE_SIZE + TWO_MB)) = Some raw ->
  state_ok (after_first_aligned_ptr s raw).
Proof using posix_memalign_ok.
  intros [_ Hb] Hz R. split.
  - intros _. apply (new_huge_ptr_arena STORAGE_SIZE s raw); 
      [discriminate | reflexivity | exact R].
  - intros p Hp. cbn in Hp |- *. apply arena_ok_more. now apply Hb.
Qed.

Lemma state_ok_after_static_init s raw :
  state_ok s -> storage_ s = None ->
  posix_memalign (blocks s) TWO_MB (wrap (MAX + TWO_MB)) = Some raw ->
  state_ok (after_static_init s raw).
Proof using posix_memalign_ok MAX_range.
  intros [Ha _] Hz R. destruct MAX_range as [M0 M1]. split.
  - intros Hp. cbn in Hp |- *. apply arena_ok_more. now apply Ha.
  - intros p [= <-]. apply (new_huge_ptr_arena MAX s raw M0 M1 R).
Qed.

Lemma aligned_ptr_done k n s :
  state_ok s -> n <= STORAGE_SIZE -> 0 <= k -> 2 ^ k <= TWO_MB ->
  (storage_ptr s = 0 ->
   posix_memalign (blocks s) TWO_MB (wrap (STORAGE_SIZE + TWO_MB)) <> None) ->
  exists s',
    aligned_ptr (2 ^ k) n s = Done (storage_ptr s', s') /\
    storage_ptr s' <> 0 /\
    arena_ok (blocks s') (storage_ptr s') STORAGE_SIZE /\
    state_ok s' /\
    (storage_ptr s <> 0 -> s' = s) /\
    (storage_ptr s = 0 ->
     exists raw,
       posix_memalign (blocks s) TWO_MB (wrap (STORAGE_SIZE + TWO_MB))
         = Some raw /\
       s' = after_first_aligned_ptr s raw).
Proof using posix_memalign_ok.
  intros Hok Hn Hk Hle Halloc.
  pose proof (is_pow2_pow2 k Hk) as Hp2.
  destruct (Z.eq_dec (storage_ptr s) 0) as [Hz|Hnz].
  - destruct (posix_memalign (blocks s) TWO_MB (wrap (STORAGE_SIZE + TWO_MB)))
      as [raw|] eqn:R; [| now exfalso; apply Halloc].
    exists (after_first_aligned_ptr s raw).
    pose proof (state_ok_after_first_aligned_ptr s raw Hok Hz R) as Hok'.
    assert (Hne : storage_ptr (after_first_aligned_ptr s raw) <> 0).
    { pose proof (new_huge_ptr_arena STORAGE_SIZE s raw ltac:(discriminate)
                    ltac:(reflexivity) R) as (Hp & _).
      unfold after_first_aligned_ptr. cbn [storage_ptr]. lia. }
    split; [exact (aligned_ptr_first _ n s raw Hn Hp2 Hle Hz R)|].
    split; [exact Hne|]. split; [apply Hok', Hne|]. split; [exact Hok'|].
    split; [contradiction|]. intros _. now exists raw.
  - exists s. destruct Hok as [Ha Hb].
    split; [exact (aligned_ptr_reuse _ n s Hn Hp2 Hle Hnz (Ha Hnz))|].
    split; [exact Hnz|]. split; [exact (Ha Hnz)|]. split; [now split|].
    split; [reflexivity | contradiction].
Qed.

(** ** What a returned call leaves behind *)

Lemma aligned_ptr_inv a n s p s' :
  state_ok s -> aligned_ptr a n s = Done (p, s') ->
  state_ok s' /\ storage_ptr s' <> 0 /\ p = storage_ptr s' /\
  storage_ s' = storage_ s /\
  (storage_ptr s <> 0 -> s' = s) /\
  (storage_ptr s = 0 -> blocks s' = blocks s ++ [(p - TWO_MB, STORAGE_SIZE + TWO_MB)]).
Proof using posix_memalign_ok.
  intros Hok H. pose proof H as H0.
  unfold Util.aligned_ptr in H0.
  unfold bind at 1 in H0. unfold assert at 1 in H0.
  destruct (Z.leb_spec n STORAGE_SIZE) as [Hn|_]; [|discriminate].
  unfold bind at 1 in H0. unfold assert at 1 in H0.
  destruct (is_pow2 a) eqn:Ha; [|discriminate].
  unfold bind at 1 in H0. unfold assert at 1 in H0.
  destruct (Z.leb_spec a TWO_MB) as [Hle|_]; [|discriminate].
  clear H0. destruct (is_pow2_true a Ha) as (k & Hk & ->).
  destruct (Z.eq_dec (storage_ptr s) 0) as [Hz|Hnz].
  - destruct (posix_memalign (blocks s) TWO_MB (wrap (STORAGE_SIZE + TWO_MB)))
      as [raw|] eqn:R.
    + destruct (aligned_ptr_done k n s Hok Hn Hk Hle ltac:(congruence))
        as (t & Hrun & Hne & _ & Hok' & _ & Hfirst).
      destruct (Hfirst Hz) as (raw' & R' & ->).
      rewrite Hrun in H. injection H as <- <-.
      split; [exact Hok'|]. split; [exact Hne|]. split; [reflexivity|].
      split; [reflexivity|]. split; [contradiction|].
      intros _. cbn [after_first_aligned_ptr after_new_huge_ptr blocks storage_ptr].
      rewrite (new_huge_ptr_ptr STORAGE_SIZE (blocks s) raw'
                 ltac:(discriminate) ltac:(reflexivity) R').
      rewrite wrap_small by (now compute).
      repeat f_equal. lia.
    + rewrite (aligned_ptr_first_abort _ n s Hn Ha Hle Hz R) in H. discriminate.
  - destruct (aligned_ptr_done k n s Hok Hn Hk Hle ltac:(contradiction))
      as (t & Hrun & Hne & _ & Hok' & Hsame & _).
    rewrite (Hsame Hnz) in Hrun, Hne, Hok'.
    rewrite Hrun in H. injection H as <- <-.
    split; [exact Hok'|]. split; [exact Hne|]. split; [reflexivity|].
    split; [reflexivity|]. split; [reflexivity | contradiction].
Qed.

Lemma clflush_loop_inv : forall fuel p e s u s',
  clflush_loop fuel p e s = Done (u, s') ->
  storage_ptr s' = storage_ptr s /\ storage_ s' = storage_ s /\
  mem s' = mem s /\ blocks s' = blocks s.
Proof.
  induction fuel as [|fuel IH]; intros p e s u s' H;
    cbn [Util.clflush_loop] in H; destruct (p <? e).
  - discriminate.
  - injection H as _ <-. now repeat split.
  - unfold bind, emit in H. apply IH in H. cbn in H. exact H.
  - injection H as _ <-. now repeat split.
Qed.

Lemma static_storage_inv s b s1 :
  state_ok s -> static_storage_ s = Done (b, s1) ->
  state_ok s1 /\ storage_ s1 = Some b /\ storage_ptr s1 = storage_ptr s /\
  (forall b0, storage_ s = Some b0 -> s1 = s /\ b0 = b) /\
  (storage_ s = None -> blocks s1 = blocks s ++ [(b - TWO_MB, MAX + TWO_MB)]).
Proof using posix_memalign_ok MAX_range.
  intros Hok H. destruct MAX_range as [M0 M1].
  destruct (storage_ s) as [b0|] eqn:E.
  - rewrite (static_storage_reuse s b0 E) in H. injection H as <- <-.
    split; [exact Hok|]. split; [exact E|]. split; [reflexivity|].
    split; [| discriminate]. intros b1 [= ->]. now split.
  - destruct (posix_memalign (blocks s) TWO_MB (wrap (MAX + TWO_MB)))
      as [raw|] eqn:R.
    + rewrite (static_storage_first s raw E R) in H. injection H as <- <-.
      split; [now apply state_ok_after_static_init|].
      split; [reflexivity|]. split; [reflexivity|].
      split; [discriminate|]. intros _.
      unfold after_static_init, after_new_huge_ptr. cbn [blocks].
      rewrite (new_huge_ptr_ptr MAX (blocks s) raw M0 M1 R).
      rewrite wrap_small by (unfold TWO_MB in *; lia).
      repeat f_equal. lia.
    + rewrite (static_storage_abort s E R) in H. discriminate.
Qed.

Lemma shuffled_region_inv fuel size offset s r s' :
  shuffled_region fuel size offset s = Done (r, s') ->
  exists b s1,
    static_storage_ s = Done (b, s1) /\ r_start r = ptr_add b offset /\
    storage_ptr s' = storage_ptr s1 /\ storage_ s' = storage_ s1 /\
    blocks s' = blocks s1.
Proof.
  intros H. unfold Util.shuffled_region in H.
  unfold bind at 1 in H.
  destruct (shuffled_region_asserts size offset s) as [[n t]| |] eqn:A;
    try discriminate.
  assert (t = s).
  { unfold Util.shuffled_region_asserts, bind, assert, ret in A.
    destruct (_ <=? _); [|discriminate].
    destruct (_ =? _); [|discriminate].
    destruct (_ <? _); [|discriminate]. now injection A. }
  subst t. unfold bind at 1 in H.
  destruct (static_storage_ s) as [[b s1]| |] eqn:St; try discriminate.
  exists b, s1. split; [reflexivity|].
  unfold bind at 1 in H. unfold memset at 1 in H.
  unfold bind at 1 in H. unfold emit at 1 in H.
  unfold bind at 1 in H. unfold get_mem at 1 in H.
  unfold bind at 1 in H. unfold set_mem at 1 in H.
  unfold bind at 1 in H. unfold get_mem at 1 in H.
  cbn [storage_ptr storage_ mem blocks events] in H.
  destruct (count fuel _ (ptr_add b offset)) as [c|]; [|discriminate].
  unfold bind at 1 in H. unfold assert at 1 in H.
  destruct (c =? n); [|discriminate].
  unfold bind at 1 in H.
  destruct (clflush_loop fuel _ _ _) as [[u s2]| |] eqn:Fl; try discriminate.
  apply clflush_loop_inv in Fl. cbn in Fl. destruct Fl as (F1 & F2 & F3 & F4).
  unfold bind, emit, ret in H. injection H as <- <-. cbn.
  repeat split; assumption.
Qed.

(** One returned call: the state stays well-formed, an arena pointer that
    is set is kept, a block is obtained only to create an arena that was
    not there, and the pointer returned is taken from the arena. *)
Lemma run_call_step c s p s' :
  state_ok s ->
  run_call posix_memalign std_shuffle MAX LINE NEXTS c s = Done (p, s') ->
  state_ok s' /\
  (storage_ptr s <> 0 -> storage_ptr s' = storage_ptr s) /\
  (forall b, storage_ s = Some b -> storage_ s' = Some b) /\
  (length (blocks s') + arenas_unset s' = length (blocks s) + arenas_unset s)%nat /\
  (forall b, In b (blocks s) -> In b (blocks s')) /\
  returned_from_arena c p s'.
Proof using posix_memalign_ok MAX_range.
  intros Hok H. destruct c as [a n | a n k | fuel size offset];
    cbn [run_call] in H.
  - destruct (aligned_ptr_inv a n s p s' Hok H)
      as (Hok' & Hne & -> & Hst & Hsame & Hfirst).
    split; [exact Hok'|]. split; [now intros Hnz; rewrite (Hsame Hnz)|].
    split; [now intros b; rewrite Hst|]. split; [|split; [|now split]].
    + destruct (Z.eq_dec (storage_ptr s) 0) as [Hz|Hnz].
      * unfold arenas_unset. rewrite (Hfirst Hz), Hst, Hz, length_app.
        destruct (Z.eqb_spec (storage_ptr s') 0); [contradiction|].
        cbn. lia.
      * now rewrite (Hsame Hnz).
    + intros b Hb. destruct (Z.eq_dec (storage_ptr s) 0) as [Hz|Hnz].
      * rewrite (Hfirst Hz). apply in_or_app. now left.
      * now rewrite (Hsame Hnz).
  - unfold Util.misaligned_ptr, bind in H.
    destruct (aligned_ptr a n s) as [[q t]| |] eqn:A; try discriminate.
    injection H as <- <-.
    destruct (aligned_ptr_inv a n s q t Hok A)
      as (Hok' & Hne & -> & Hst & Hsame & Hfirst).
    split; [exact Hok'|]. split; [now intros Hnz; rewrite (Hsame Hnz)|].
    split; [now intros b; rewrite Hst|]. split; [|split; [|now split]].
    + destruct (Z.eq_dec (storage_ptr s) 0) as [Hz|Hnz].
      * unfold arenas_unset. rewrite (Hfirst Hz), Hst, Hz, length_app.
        destruct (Z.eqb_spec (storage_ptr t) 0); [contradiction|].
        cbn. lia.
      * now rewrite (Hsame Hnz).
    + intros b Hb. destruct (Z.eq_dec (storage_ptr s) 0) as [Hz|Hnz].
      * rewrite (Hfirst Hz). apply in_or_app. now left.
      * now rewrite (Hsame Hnz).
  - unfold bind in H.
    destruct (shuffled_region fuel size offset s) as [[r t]| |] eqn:A;
      try discriminate.
    injection H as <- <-.
    destruct (shuffled_region_inv fuel size offset s r t A)
      as (b & s1 & St & Hr & E1 & E2 & E3).
    destruct (static_storage_inv s b s1 Hok St)
      as ([Oa Ob] & Hb & Hp & Hsame & Hfirst).
    split; [|split; [|split; [|split; [|split]]]].
    + split; [rewrite E1, E3; exact Oa | rewrite E2, E3; exact Ob].
    + intros _. now rewrite E1.
    + intros b0 Hb0. destruct (Hsame b0 Hb0) as [-> ->]. now rewrite E2.
    + unfold arenas_unset. rewrite E1, E2, E3, Hp, Hb.
      destruct (storage_ s) as [b0|] eqn:E.
      * destruct (Hsame b0 eq_refl) as [-> _]. lia.
      * rewrite (Hfirst eq_refl), length_app. cbn. lia.
    + intros x Hx. rewrite E3. destruct (storage_ s) as [b0|] eqn:E.
      * destruct (Hsame b0 eq_refl) as [-> _]. exact Hx.
      * rewrite (Hfirst eq_refl). apply in_or_app. now left.
    + exists b. split; [now rewrite E2 | exact Hr].
Qed.

(** ** Configuration errors *)

Lemma is_pow2_false a :
  (forall k, 0 <= k -> a <> 2 ^ k) -> is_pow2 a = false.
Proof.
  intros H. destruct (is_pow2 a) eqn:E; [|reflexivity].
  destruct (is_pow2_true a E) as (k & Hk & ->). now destruct (H k Hk).
Qed.

(** A size above the capacity of the small arena, an alignment that is
    not a power of two, or one above 2MB, ends [aligned_ptr] in an
    assertion. *)
Lemma aligned_ptr_config_error_aborts a n s :
  STORAGE_SIZE < n \/ (forall k, 0 <= k -> a <> 2 ^ k) \/ TWO_MB < a ->
  exists w, aligned_ptr a n s = Abort w.
Proof.
  intros H. unfold Util.aligned_ptr.
  unfold bind at 1. unfold assert at 1.
  destruct (Z.leb_spec n STORAGE_SIZE) as [Hn|_]; [|now eexists].
  unfold bind at 1. unfold assert at 1.
  destruct (is_pow2 a) eqn:Ha; [|now eexists].
  unfold bind at 1. unfold assert at 1.
  destruct (Z.leb_spec a TWO_MB) as [Hle|_]; [|now eexists].
  exfalso. destruct H as [H|[H|H]]; try lia.
  rewrite (is_pow2_false a H) in Ha. discriminate.
Qed.

(** A size that is not a multiple of the line size, or a sum
    [size + offset] above the capacity of the large arena that does not
    wrap, ends [shuffled_region] in an assertion. *)
Lemma shuffled_region_config_error_aborts fuel size offset s :
  0 <= size + offset < 2 ^ 64 ->
  MAX < size + offset \/ size mod LINE <> 0 ->
  exists w, shuffled_region fuel size offset s = Abort w.
Proof.
  intros Hr H.
  unfold Util.shuffled_region, Util.shuffled_region_asserts.
  unfold bind at 1. unfold bind at 1. unfold assert at 1.
  rewrite wrap_small by exact Hr.
  destruct (Z.leb_spec (size + offset) MAX) as [Hc|_]; [|now eexists].
  unfold bind at 1. unfold assert at 1.
  destruct (Z.eqb_spec (size mod LINE) 0) as [Hm|_]; [|now eexists].
  exfalso. destruct H; lia.
Qed.

(** ** The properties of the specification *)

(** C1. For a size that is a positive multiple of the cache-line size and
    an offset with [size + offset] within the capacity of the large arena,
    [shuffled_region] returns a region whose lines form one ring:
    following [nexts[0]] from the first line of the region visits
    [size / UB_CACHE_LINE_SIZE] distinct lines, which are exactly the
    lines of the region, and is back at the first line at the last step
    and not before; [count] on the first line returns that number (100
    for lines of 64 bytes and a region of 6400 bytes). *)
Theorem C1_shuffled_region_single_cycle fuel size offset s :
  state_ok s ->
  0 <= offset -> 0 < size -> size mod LINE = 0 -> size + offset <= MAX ->
  (storage_ s = None ->
   posix_memalign (blocks s) TWO_MB (wrap (MAX + TWO_MB)) <> None) ->
  (Z.to_nat (size / LINE) <= fuel)%nat ->
  exists r s',
    shuffled_region fuel size offset s = Done (r, s') /\
    r_size r = size /\
    let n := Z.to_nat (size / LINE) in
    let w := walk n (mem s') (r_start r) in
    Permutation w (map (fun i => r_start r + LINE * i) (iota (size / LINE))) /\
    NoDup w /\
    nth (n - 1) w 0 = r_start r /\
    (forall t, (t < n - 1)%nat -> nth t w 0 <> r_start r) /\
    count fuel (mem s') (r_start r) = Some (size / LINE).
Proof using posix_memalign_ok std_shuffle_ok MAX_range CacheLine_layout.
  intros Hok Ho Hs Hm Hc Halloc Hfuel.
  destruct (static_storage_done s Hok Halloc)
    as (b & s1 & Hst & (Hb & _ & Hfit & _) & _).
  destruct (shuffled_region_from_arena fuel size offset s b s1
              Ho Hs Hm Hc Hst Hb Hfit Hfuel) as (Hl & Hcount & evs & Hrun).
  destruct (size_lines_exact size Hs Hm) as [Hn _].
  assert (Hv : forall i, 0 <= i < size / LINE ->
                         line_in_space LINE (b + offset) i)
    by (intros i Hi; apply (region_lines_in_space b size offset i);
        assumption).
  eexists. eexists. split; [exact Hrun|]. cbn [r_size r_start mem].
  split; [reflexivity|].
  destruct (ring_from_line_zero _ _ (size / LINE) _ Hl
              (shuffled_indexes_perm (size / LINE)) Hn Hv) as (P & N & B & F).
  rewrite (map_ext_in (line_ptr (b + offset))
                      (fun i => b + offset + LINE * i)) in P
    by (intros i Hi; apply line_ptr_small, Hv, iota_In, Hi).
  repeat split; assumption.
Qed.

(** C5. The order in which the lines are linked does not depend on the
    state of the process: for the same size and offset, any two calls of
    [shuffled_region] leave rings whose walks from the first line go
    through the same line indexes in the same order, the order
    [ring_order] reads off the index vector that [std::shuffle], seeded
    with 123 on every call, makes of [iota].  The second call may be in
    another run, with the arena at another address, or in the same run:
    the state the first call leaves is well-formed, with the arena in
    place. *)
Theorem C5_shuffled_region_deterministic fuel1 fuel2 size offset s1 s2 :
  state_ok s1 -> state_ok s2 ->
  0 <= offset -> 0 < size -> size mod LINE = 0 -> size + offset <= MAX ->
  (storage_ s1 = None ->
   posix_memalign (blocks s1) TWO_MB (wrap (MAX + TWO_MB)) <> None) ->
  (storage_ s2 = None ->
   posix_memalign (blocks s2) TWO_MB (wrap (MAX + TWO_MB)) <> None) ->
  (Z.to_nat (size / LINE) <= fuel1)%nat ->
  (Z.to_nat (size / LINE) <= fuel2)%nat ->
  exists r1 s1' r2 s2',
    shuffled_region fuel1 size offset s1 = Done (r1, s1') /\
    shuffled_region fuel2 size offset s2 = Done (r2, s2') /\
    state_ok s1' /\ storage_ s1' <> None /\
    forall j,
      map (line_index LINE (r_start r1)) (walk j (mem s1') (r_start r1)) =
        ring_order (shuffled_indexes (size / LINE)) j /\
      map (line_index LINE (r_start r2)) (walk j (mem s2') (r_start r2)) =
        ring_order (shuffled_indexes (size / LINE)) j.
Proof using posix_memalign_ok std_shuffle_ok MAX_range CacheLine_layout.
  intros Hok1 Hok2 Ho Hs Hm Hc Ha1 Ha2 Hf1 Hf2.
  destruct (static_storage_done s1 Hok1 Ha1)
    as (b1 & t1 & Hst1 & (Hb1 & _ & Hfit1 & _) & _).
  destruct (static_storage_done s2 Hok2 Ha2)
    as (b2 & t2 & Hst2 & (Hb2 & _ & Hfit2 & _) & _).
  destruct (shuffled_region_from_arena fuel1 size offset s1 b1 t1
              Ho Hs Hm Hc Hst1 Hb1 Hfit1 Hf1) as (Hl1 & _ & evs1 & Hrun1).
  destruct (shuffled_region_from_arena fuel2 size offset s2 b2 t2
              Ho Hs Hm Hc Hst2 Hb2 Hfit2 Hf2) as (Hl2 & _ & evs2 & Hrun2).
  destruct (static_storage_inv s1 b1 t1 Hok1 Hst1) as ([Oa Ob] & Hsome & _).
  destruct (size_lines_exact size Hs Hm) as [Hn _].
  assert (H0 : In 0 (shuffled_indexes (size / LINE)))
    by (apply shuffled_indexes_In; lia).
  do 4 eexists. split; [exact Hrun1|]. split; [exact Hrun2|].
  cbn [r_start mem storage_]. split; [split; assumption|].
  split; [congruence|]. intros j.
  assert (Hv : forall b, 0 < b -> b + MAX < 2 ^ 64 ->
             forall i, In i (shuffled_indexes (size / LINE)) ->
                       line_in_space LINE (b + offset) i).
  { intros b Hb Hfit i Hi. apply shuffled_indexes_In in Hi.
    apply (region_lines_in_space b size offset i); assumption. }
  split; apply walk_indexes_ring_order; auto.
Qed.

(** C3. For an alignment that is a power of two not above 2MB and a size
    not above the capacity of the small arena, [aligned_ptr] returns a
    pointer [p] that is a multiple of the alignment and such that
    [p, p + size) lies in the arena, the [STORAGE_SIZE] bytes at
    [storage_ptr], which are the last [STORAGE_SIZE] bytes of a block
    obtained from [posix_memalign]. *)
Theorem C3_aligned_ptr_aligned_in_arena k n s :
  state_ok s -> 0 <= n <= STORAGE_SIZE -> 0 <= k -> 2 ^ k <= TWO_MB ->
  (storage_ptr s = 0 ->
   posix_memalign (blocks s) TWO_MB (wrap (STORAGE_SIZE + TWO_MB)) <> None) ->
  exists p s',
    aligned_ptr (2 ^ k) n s = Done (p, s') /\
    p mod 2 ^ k = 0 /\
    storage_ptr s' <= p /\ p + n <= storage_ptr s' + STORAGE_SIZE /\
    In (storage_ptr s' - TWO_MB, STORAGE_SIZE + TWO_MB) (blocks s').
Proof using posix_memalign_ok.
  intros Hok [Hn0 Hn] Hk Hle Halloc.
  destruct (aligned_ptr_done k n s Hok Hn Hk Hle Halloc)
    as (s' & Hrun & Hne & (Hp & Hm & Hfit & Hin) & _).
  exists (storage_ptr s'), s'. split; [exact Hrun|].
  split; [| split; [lia | split; [lia | exact Hin]]].
  apply TWO_MB_multiple; [| exact Hm].
  split; [exact Hk | now apply pow2_le_TWO_MB].
Qed.

(** C9. The base of the small arena is on a 2MB boundary and every
    permitted alignment divides 2MB, so [aligned_ptr] returns the base of
    the arena itself, whatever the permitted alignment and size: a call
    with any other permitted arguments returns the same address.  The
    address returned is the global [storage_ptr] the call leaves: it is
    not null, on a 2MB boundary, and 2MB into a block of
    [STORAGE_SIZE + TWO_MB] bytes obtained from [posix_memalign]; the
    padding [align] computes for it is zero and [align] returns it as it
    is.  The call leaves the state as it was when the arena was in place,
    and otherwise the state in which the arena has just been created. *)
Theorem C9_aligned_ptr_returns_arena_base k1 n1 k2 n2 s :
  state_ok s ->
  0 <= n1 <= STORAGE_SIZE -> 0 <= k1 -> 2 ^ k1 <= TWO_MB ->
  0 <= n2 <= STORAGE_SIZE -> 0 <= k2 -> 2 ^ k2 <= TWO_MB ->
  (storage_ptr s = 0 ->
   posix_memalign (blocks s) TWO_MB (wrap (STORAGE_SIZE + TWO_MB)) <> None) ->
  exists s',
    aligned_ptr (2 ^ k1) n1 s = Done (storage_ptr s', s') /\
    aligned_ptr (2 ^ k2) n2 s = Done (storage_ptr s', s') /\
    aligned_ptr (2 ^ k2) n2 s' = Done (storage_ptr s', s') /\
    align_up (2 ^ k1) (storage_ptr s') - storage_ptr s' = 0 /\
    storage_ptr s' <> 0 /\
    arena_ok (blocks s') (storage_ptr s') STORAGE_SIZE /\
    align_padding (2 ^ k1) (storage_ptr s') = 0 /\
    align (2 ^ k1) n1 (storage_ptr s') STORAGE_SIZE s' =
      Done (storage_ptr s', s') /\
    (storage_ptr s <> 0 -> s' = s) /\
    (storage_ptr s = 0 ->
     exists raw,
       posix_memalign (blocks s) TWO_MB (wrap (STORAGE_SIZE + TWO_MB))
         = Some raw /\
       s' = after_first_aligned_ptr s raw).
Proof using posix_memalign_ok.
  intros Hok [_ Hn1] Hk1 Hle1 [_ Hn2] Hk2 Hle2 Halloc.
  destruct (aligned_ptr_done k1 n1 s Hok Hn1 Hk1 Hle1 Halloc)
    as (s' & Hrun1 & Hne & Har & Hok' & Hsame & Hfirst).
  destruct (aligned_ptr_done k2 n2 s Hok Hn2 Hk2 Hle2 Halloc)
    as (s2 & Hrun2 & _ & _ & _ & Hsame2 & Hfirst2).
  assert (E : s2 = s').
  { destruct (Z.eq_dec (storage_ptr s) 0) as [Hz|Hnz].
    - destruct (Hfirst Hz) as (raw & R & ->).
      destruct (Hfirst2 Hz) as (raw2 & R2 & ->). congruence.
    - rewrite (Hsame Hnz), (Hsame2 Hnz). reflexivity. }
  subst s2.
  assert (P : 0 < 2 ^ k1) by (apply Z.pow_pos_nonneg; lia).
  pose proof (pow2_le_TWO_MB k1 Hk1 Hle1) as K1.
  destruct Har as (Hp & Hm & Hfit & Hin).
  assert (Hmk : storage_ptr s' mod 2 ^ k1 = 0).
  { apply TWO_MB_multiple; [| exact Hm]. split; [exact Hk1 | exact K1]. }
  assert (Hup : align_up (2 ^ k1) (storage_ptr s') = storage_ptr s')
    by (apply align_up_aligned; assumption).
  assert (Htop : storage_ptr s' + 2 ^ k1 <= 2 ^ 64)
    by (unfold STORAGE_SIZE, TWO_MB in *; lia).
  exists s'. split; [exact Hrun1|]. split; [exact Hrun2|]. split.
  { destruct (aligned_ptr_done k2 n2 s' Hok' Hn2 Hk2 Hle2
                ltac:(intros; contradiction))
      as (s3 & Hrun3 & _ & _ & _ & Hsame3 & _).
    rewrite (Hsame3 Hne) in Hrun3. exact Hrun3. }
  split; [lia|]. split; [exact Hne|].
  split; [repeat split; assumption|].
  split.
  { unfold align_padding, align_aligned.
    rewrite aligned_value by lia. rewrite Hup, Z.sub_diag. reflexivity. }
  split.
  { rewrite align_done by lia. now rewrite Hup. }
  split; [exact Hsame | exact Hfirst].
Qed.

(** C7. [misaligned_ptr] returns the pointer [aligned_ptr] returns for
    the same alignment and size, moved by the misalignment ([p + k] in
    pointer arithmetic, which is the sum of the address and [k] whenever
    that is an address): from the same state, and also when [aligned_ptr]
    is called after [misaligned_ptr] in the same run. *)
Theorem C7_misaligned_ptr_offsets_aligned_ptr k n misalignment s :
  state_ok s -> 0 <= n <= STORAGE_SIZE -> 0 <= k -> 2 ^ k <= TWO_MB ->
  (storage_ptr s = 0 ->
   posix_memalign (blocks s) TWO_MB (wrap (STORAGE_SIZE + TWO_MB)) <> None) ->
  exists p s',
    aligned_ptr (2 ^ k) n s = Done (p, s') /\
    misaligned_ptr (2 ^ k) n misalignment s =
      Done (ptr_add p misalignment, s') /\
    (0 <= p + misalignment < 2 ^ 64 ->
     ptr_add p misalignment = p + misalignment) /\
    aligned_ptr (2 ^ k) n s' = Done (p, s').
Proof using posix_memalign_ok.
  intros Hok [_ Hn] Hk Hle Halloc.
  destruct (aligned_ptr_done k n s Hok Hn Hk Hle Halloc)
    as (s' & Hrun & Hne & _ & Hok' & _).
  exists (storage_ptr s'), s'. split; [exact Hrun|]. split.
  - unfold Util.misaligned_ptr, bind. rewrite Hrun. reflexivity.
  - split; [apply ptr_add_small|].
    destruct (aligned_ptr_done k n s' Hok' Hn Hk Hle
                ltac:(intros; contradiction))
      as (s3 & Hrun3 & _ & _ & _ & Hsame3 & _).
    rewrite (Hsame3 Hne) in Hrun3. exact Hrun3.
Qed.

(** C10. [shuffled_region] with size 0, and an offset within the capacity
    of the large arena, passes the first two assertions and fails the
    third, [size_lines > 0]: it does not return a region. *)
Theorem C10_shuffled_region_size_zero_aborts fuel offset s :
  0 <= offset <= MAX ->
  shuffled_region fuel 0 offset s = Abort A_region_lines.
Proof using MAX_range CacheLine_layout.
  intros [Ho Hc]. destruct MAX_range as [M0 M1].
  unfold Util.shuffled_region, Util.shuffled_region_asserts,
    bind, assert.
  rewrite Z.add_0_l, wrap_small by (unfold TWO_MB in M1; lia).
  apply Z.leb_le in Hc. rewrite Hc.
  rewrite Zmod_0_l, Zdiv_0_l. reflexivity.
Qed.

(** C8. Each arena is created at most once and then reused.  Over any
    sequence of calls from a well-formed state (the initial state of a
    process is one), every call that returns leaves the state well-formed;
    an arena pointer that was set when the sequence began is still the
    same, so no call replaces it; the number of blocks obtained from
    [posix_memalign] grows exactly by the number of arenas created, and
    the blocks already obtained are kept; and the pointer each call
    returns is the base of its arena moved by the misalignment or offset
    asked for. *)
Theorem C8_arenas_created_once_and_reused cs s :
  state_ok s ->
  Forall (fun '(c, p, s') =>
            state_ok s' /\
            (storage_ptr s <> 0 -> storage_ptr s' = storage_ptr s) /\
            (forall b, storage_ s = Some b -> storage_ s' = Some b) /\
            (length (blocks s') + arenas_unset s' =
             length (blocks s) + arenas_unset s)%nat /\
            (forall b, In b (blocks s) -> In b (blocks s')) /\
            returned_from_arena c p s')
         (run_calls posix_memalign std_shuffle MAX LINE NEXTS cs s).
Proof using posix_memalign_ok MAX_range.
  revert s. induction cs as [|c cs IH]; intros s Hok; [constructor|].
  cbn [run_calls].
  destruct (run_call posix_memalign std_shuffle MAX LINE NEXTS c s)
    as [[p s']| |] eqn:R; try constructor.
  - exact (run_call_step c s p s' Hok R).
  - destruct (run_call_step c s p s' Hok R) as (Hok' & Hp & Hs & Hn & Hb & _).
    eapply Forall_impl; [| exact (IH s' Hok')].
    intros [[c2 p2] s2] (Hok2 & Hp2 & Hs2 & Hn2 & Hb2 & Hr2).
    split; [exact Hok2|]. split; [|split; [|split; [|split]]].
    + intros Hnz. rewrite <- (Hp Hnz). apply Hp2. rewrite (Hp Hnz). exact Hnz.
    + intros b Hb0. apply Hs2. now apply Hs.
    + lia.
    + intros b Hb0. apply Hb2. now apply Hb.
    + exact Hr2.
Qed.

(** C4, as amended.  When [size + TWO_MB] does not wrap and
    [posix_memalign] hands out the block at [raw], [new_huge_ptr size]
    returns [raw + TWO_MB], a pointer on a 2MB boundary that lies 2MB
    into the new block of [size + TWO_MB] bytes, so that exactly the
    [size] bytes [ptr, ptr + size) of the block follow it; before it
    returns, it has filled these bytes with 1 and then with 0, in this
    order, and they are all 0 at the end. *)
Theorem C4_new_huge_ptr_block_and_fill size s raw :
  0 <= size -> size + TWO_MB < 2 ^ 64 ->
  posix_memalign (blocks s) TWO_MB (size + TWO_MB) = Some raw ->
  exists s',
    let ptr := raw + TWO_MB in
    new_huge_ptr size s = Done (ptr, s') /\
    ptr mod TWO_MB = 0 /\
    blocks s' = blocks s ++ [(raw, size + TWO_MB)] /\
    ptr + size = raw + (size + TWO_MB) /\
    in_block (blocks s') ptr size /\
    events s' = events s ++ [EvMemalign TWO_MB (size + TWO_MB) raw;
                             EvMadvise raw (size + TWO_MB);
                             EvMemset ptr 1 size;
                             EvMemset ptr 0 size] /\
    mem s' = memset_mem (memset_mem (mem s) ptr 1 size) ptr 0 size /\
    forall a, ptr <= a < ptr + size ->
      memset_mem (mem s) ptr 1 size a = 1 /\ mem s' a = 0.
Proof using posix_memalign_ok.
  intros Hs Hlt R.
  assert (W : wrap (size + TWO_MB) = size + TWO_MB)
    by (apply wrap_small; unfold TWO_MB in *; lia).
  rewrite <- W in R.
  pose proof (new_huge_ptr_ptr size (blocks s) raw Hs Hlt R) as P.
  exists (after_new_huge_ptr s raw size). cbv zeta.
  split; [rewrite <- P; exact (new_huge_ptr_done size s raw R)|].
  destruct (new_huge_ptr_arena size s raw Hs Hlt R) as (_ & Hm & _ & _).
  rewrite P in Hm. split; [exact Hm|].
  unfold after_new_huge_ptr. cbn [blocks events mem]. rewrite W, P.
  split; [reflexivity|]. split; [lia|]. split.
  - exists raw, (size + TWO_MB). split; [apply in_or_app; right; now left|].
    unfold TWO_MB. lia.
  - split; [reflexivity|]. split; [reflexivity|].
    intros a Ha. rewrite !memset_mem_inside by exact Ha. now split.
Qed.

(** ** Further properties of the allocator and the builder *)

(** X9. The first call of [aligned_ptr] creates the small arena: it
    returns the address 2MB into the new block, sets [storage_ptr] to
    it, leaves every byte of the [STORAGE_SIZE] bytes of the arena at
    zero and every byte outside them as it was, and the only calls to
    the environment are the allocation, the advice and the two fills. *)
Theorem X9_aligned_ptr_first_call_zeroes_arena k n s raw :
  0 <= n <= STORAGE_SIZE -> 0 <= k -> 2 ^ k <= TWO_MB ->
  storage_ptr s = 0 ->
  posix_memalign (blocks s) TWO_MB (STORAGE_SIZE + TWO_MB) = Some raw ->
  exists s',
    let p := raw + TWO_MB in
    aligned_ptr (2 ^ k) n s = Done (p, s') /\
    storage_ptr s' = p /\
    (forall a, p <= a < p + STORAGE_SIZE -> mem s' a = 0) /\
    (forall a, a < p \/ p + STORAGE_SIZE <= a -> mem s' a = mem s a) /\
    events s' = events s ++
                [EvMemalign TWO_MB (STORAGE_SIZE + TWO_MB) raw;
                 EvMadvise raw (STORAGE_SIZE + TWO_MB);
                 EvMemset p 1 STORAGE_SIZE;
                 EvMemset p 0 STORAGE_SIZE].
Proof using posix_memalign_ok.
  intros [_ Hn] Hk Hle Hz R.
  assert (W : wrap (STORAGE_SIZE + TWO_MB) = STORAGE_SIZE + TWO_MB)
    by reflexivity.
  rewrite <- W in R.
  pose proof (new_huge_ptr_ptr STORAGE_SIZE (blocks s) raw
                ltac:(discriminate) ltac:(reflexivity) R) as P.
  exists (after_first_aligned_ptr s raw). cbv zeta.
  split.
  { rewrite <- P.
    exact (aligned_ptr_first _ n s raw Hn (is_pow2_pow2 k Hk) Hle Hz R). }
  unfold after_first_aligned_ptr, after_new_huge_ptr.
  cbn [storage_ptr mem events]. rewrite P, W.
  split; [reflexivity|]. split; [|split; [|reflexivity]].
  - intros a Ha. now rewrite memset_mem_inside.
  - intros a Ha. unfold memset_mem.
    destruct (Z.leb_spec (raw + TWO_MB) a);
      destruct (Z.ltb_spec a (raw + TWO_MB + STORAGE_SIZE));
      cbn [andb]; (reflexivity || lia).
Qed.

(** X10. When [posix_memalign] fails at the first use of an arena, the
    call ends in [assert(result == 0)]: [aligned_ptr], [misaligned_ptr]
    and [shuffled_region] never return a pointer into a block that was
    not obtained. *)
Theorem X10_allocation_failure_is_fatal k n misalignment fuel size offset s :
  0 <= n <= STORAGE_SIZE -> 0 <= k -> 2 ^ k <= TWO_MB ->
  0 <= offset -> 0 < size -> size mod LINE = 0 -> size + offset <= MAX ->
  storage_ptr s = 0 -> storage_ s = None ->
  (forall len, posix_memalign (blocks s) TWO_MB len = None) ->
  aligned_ptr (2 ^ k) n s = Abort A_memalign_result /\
  misaligned_ptr (2 ^ k) n misalignment s = Abort A_memalign_result /\
  shuffled_region fuel size offset s = Abort A_memalign_result.
Proof using MAX_range CacheLine_layout.
  intros [_ Hn] Hk Hle Ho Hs Hm Hc Hz Hnone Hfail.
  assert (A : aligned_ptr (2 ^ k) n s = Abort A_memalign_result)
    by (apply aligned_ptr_first_abort;
        [exact Hn | now apply is_pow2_pow2 | exact Hle | exact Hz
        | apply Hfail]).
  split; [exact A|]. split.
  - unfold Util.misaligned_ptr, bind. now rewrite A.
  - unfold Util.shuffled_region. unfold bind at 1.
    rewrite shuffled_region_asserts_pass by assumption.
    unfold bind at 1.
    now rewrite (static_storage_abort s Hnone (Hfail _)).
Qed.

Lemma setNexts_outside m p v a :
  a < p \/ p + LINE <= a -> setNexts m p v a = m a.
Proof using CacheLine_layout.
  intros H. unfold Util.setNexts. apply fill_nexts_outside.
  pose proof LINE_bounds. unfold PTR_SIZE. lia.
Qed.

Lemma line_inside_region st n i a :
  line_in_space LINE st i -> 0 <= i < n ->
  a < st \/ st + LINE * n <= a ->
  a < line_ptr st i \/ line_ptr st i + LINE <= a.
Proof using CacheLine_layout.
  intros Hv Hi Ha. rewrite (line_ptr_small st i Hv).
  pose proof LINE_bounds. nia.
Qed.

Lemma link_lines_outside st n a :
  a < st \/ st + LINE * n <= a ->
  forall rest i0 m,
    (forall i, In i (i0 :: rest) -> line_in_space LINE st i /\ 0 <= i < n) ->
    snd (link_lines st rest (line_ptr st i0) m) a = m a.
Proof using CacheLine_layout.
  intros Ha. induction rest as [|i rest IH]; intros i0 m Hv; [reflexivity|].
  cbn [Util.link_lines]. rewrite IH by (intros x Hx; apply Hv; now right).
  apply setNexts_outside.
  destruct (Hv i0 (or_introl eq_refl)) as [V R].
  exact (line_inside_region st n i0 a V R Ha).
Qed.

(** The linking writes inside the lines of the index vector only. *)
Lemma link_cycle_outside st n l m a :
  l <> [] ->
  (forall i, In i l -> line_in_space LINE st i /\ 0 <= i < n) ->
  a < st \/ st + LINE * n <= a ->
  link_cycle st l m a = m a.
Proof using CacheLine_layout.
  destruct l as [|i0 rest]; [congruence|]. intros _ Hv Ha.
  unfold Util.link_cycle. cbn [tl].
  change (nth 0 (i0 :: rest) 0) with i0.
  pose proof (link_lines_fst st rest i0 m) as Hf.
  pose proof (link_lines_outside st n a Ha rest i0 m Hv) as Ho.
  destruct (link_lines st rest (line_ptr st i0) m) as [p m1].
  cbn [fst snd] in Hf, Ho. subst p.
  rewrite setNexts_outside; [exact Ho|].
  assert (Hin : In (nth (length rest) (i0 :: rest) 0) (i0 :: rest))
    by (apply nth_In; cbn [length]; lia).
  destruct (Hv _ Hin) as [V R].
  exact (line_inside_region st n _ a V R Ha).
Qed.

Lemma clflush_loop_exact : forall fuel k p e s,
  (k <= fuel)%nat -> 0 <= p -> e < 2 ^ 64 -> e = p + LINE * Z.of_nat k ->
  clflush_loop fuel p e s =
  Done (tt, mkState (storage_ptr s) (storage_ s) (mem s) (blocks s)
                    (events s ++
                     map (fun i => EvClflush (p + LINE * Z.of_nat i))
                         (seq 0 k))).
Proof using CacheLine_layout.
  pose proof LINE_bounds as [L _].
  induction fuel as [|fuel IH]; intros k p e s Hk Hp He E.
  - assert (k = 0%nat) by lia. subst k. cbn [Util.clflush_loop seq map].
    destruct (Z.ltb_spec p e); [nia|]. rewrite app_nil_r. now destruct s.
  - cbn [Util.clflush_loop]. destruct (Z.ltb_spec p e).
    + unfold bind, emit. destruct k as [|k]; [nia|].
      rewrite ptr_add_small by nia.
      rewrite (IH k (p + LINE) e) by (lia || nia).
      cbn [storage_ptr storage_ mem blocks events seq map].
      rewrite <- app_assoc. cbn [app].
      rewrite <- seq_shift, map_map.
      rewrite (map_ext (fun i => EvClflush (p + LINE + LINE * Z.of_nat i))
                       (fun i => EvClflush (p + LINE * Z.of_nat (S i))))
        by (intros i; f_equal; lia).
      replace (p + LINE * Z.of_nat 0) with p by lia. reflexivity.
    + assert (k = 0%nat) by nia. subst k. cbn [seq map].
      rewrite app_nil_r. now destruct s.
Qed.

(** The builder on an arena that is in place: the state it leaves. *)
Lemma shuffled_region_exact fuel size offset s b :
  state_ok s -> storage_ s = Some b ->
  0 <= offset -> 0 < size -> size mod LINE = 0 -> size + offset <= MAX ->
  (Z.to_nat (size / LINE) <= fuel)%nat ->
  let storage := b + offset in
  let m := link_cycle storage (shuffled_indexes (size / LINE))
                      (memset_mem (mem s) storage (-1) size) in
  shuffled_region fuel size offset s =
  Done (mkRegion size storage,
        mkState (storage_ptr s) (storage_ s) m (blocks s)
                (events s ++
                 EvMemset storage (-1) size ::
                 EvNewVector (size / LINE) ::
                 map (fun i => EvClflush (storage + LINE * Z.of_nat i))
                     (seq 0 (Z.to_nat (size / LINE))) ++
                 [EvMfence; EvNewRegion size storage;
                  EvDeleteVector (size / LINE)])).
Proof using std_shuffle_ok MAX_range CacheLine_layout.
  intros [_ Hok] Hb Ho Hs Hm Hc Hfuel storage m.
  destruct (Hok b Hb) as (Hb0 & _ & Hfit & _).
  pose proof (static_storage_reuse s b Hb) as Hst.
  destruct (shuffled_region_from_arena fuel size offset s b s
              Ho Hs Hm Hc Hst Hb0 Hfit Hfuel) as (_ & Hcount & _).
  destruct (size_lines_exact size Hs Hm) as [Hn E].
  unfold Util.shuffled_region.
  unfold bind at 1. rewrite shuffled_region_asserts_pass by assumption.
  unfold bind at 1. rewrite Hst.
  rewrite (ptr_add_small b offset) by lia. fold storage.
  rewrite (ptr_add_small storage size) by (unfold storage; lia).
  unfold bind at 1. unfold memset at 1.
  unfold bind at 1. unfold emit at 1.
  unfold bind at 1. unfold get_mem at 1. cbn [mem].
  unfold bind at 1. unfold set_mem at 1. cbn [storage_ptr storage_ blocks events].
  unfold bind at 1. unfold get_mem at 1. cbn [mem].
  fold storage in Hcount. fold m in Hcount. fold m. rewrite Hcount.
  unfold bind at 1. unfold assert at 1. rewrite Z.eqb_refl.
  unfold bind at 1.
  rewrite (clflush_loop_exact fuel (Z.to_nat (size / LINE)) storage
             (storage + size))
    by (exact Hfuel || (unfold storage; lia) || nia).
  cbn [storage_ptr storage_ mem blocks events].
  unfold bind, emit, ret. cbn [storage_ptr storage_ mem blocks events].
  rewrite <- !app_assoc. reflexivity.
Qed.

(** X11. On an arena that is in place, [shuffled_region] leaves the
    blocks obtained from [posix_memalign] as they were outside the
    region: every byte of such a block that lies below
    [storage_ + offset] or from [storage_ + offset + size] on keeps its
    value (the bytes of the small arena and the rest of the large arena
    are among them).  The region lies inside the large arena, the
    pointers to the arenas are unchanged and no block is obtained from
    [posix_memalign].  The index vector and the descriptor are objects of
    the free store, outside these blocks. *)
Theorem X11_shuffled_region_writes_inside_region fuel size offset s b :
  state_ok s -> storage_ s = Some b ->
  0 <= offset -> 0 < size -> size mod LINE = 0 -> size + offset <= MAX ->
  (Z.to_nat (size / LINE) <= fuel)%nat ->
  exists s',
    shuffled_region fuel size offset s =
      Done (mkRegion size (b + offset), s') /\
    (forall base len a,
       In (base, len) (blocks s) -> base <= a < base + len ->
       a < b + offset \/ b + offset + size <= a ->
       mem s' a = mem s a) /\
    b <= b + offset /\ b + offset + size <= b + MAX /\
    In (b - TWO_MB, MAX + TWO_MB) (blocks s) /\
    storage_ptr s' = storage_ptr s /\ storage_ s' = storage_ s /\
    blocks s' = blocks s.
Proof using std_shuffle_ok MAX_range CacheLine_layout.
  intros Hok Hb Ho Hs Hm Hc Hfuel.
  pose proof (shuffled_region_exact fuel size offset s b
                Hok Hb Ho Hs Hm Hc Hfuel) as Hrun. cbv zeta in Hrun.
  destruct Hok as [_ Hok]. destruct (Hok b Hb) as (Hb0 & _ & Hfit & Hblk).
  destruct (size_lines_exact size Hs Hm) as [Hn E].
  eexists. split; [exact Hrun|]. cbn [mem storage_ptr storage_ blocks].
  split; [|repeat split; (lia || exact Hblk)].
  intros base len a _ _ Ha.
  rewrite (link_cycle_outside (b + offset) (size / LINE)).
  - unfold memset_mem.
    destruct (Z.leb_spec (b + offset) a);
      destruct (Z.ltb_spec a (b + offset + size));
      cbn [andb]; (reflexivity || lia).
  - intros e. pose proof (shuffled_indexes_length (size / LINE)) as Hl.
    rewrite e in Hl. cbn in Hl. lia.
  - intros i Hi. apply shuffled_indexes_In in Hi. split; [|exact Hi].
    apply (region_lines_in_space b size offset i); assumption.
  - rewrite E. exact Ha.
Qed.

(** X12. On an arena that is in place, the calls [shuffled_region] makes
    to the environment are, in this order: the fill of the region with
    the byte -1, the allocation of the storage of the index vector, one
    entry for every line, one [_mm_clflush] for the address of every line
    of the region, in increasing order, [_mm_mfence], the [new region]
    for the descriptor that is returned, and the release of the storage
    of the vector.  Nothing releases the descriptor. *)
Theorem X12_shuffled_region_flushes_every_line fuel size offset s b :
  state_ok s -> storage_ s = Some b ->
  0 <= offset -> 0 < size -> size mod LINE = 0 -> size + offset <= MAX ->
  (Z.to_nat (size / LINE) <= fuel)%nat ->
  exists r s',
    shuffled_region fuel size offset s = Done (r, s') /\
    r = mkRegion size (b + offset) /\
    events s' =
      events s ++
      EvMemset (r_start r) (-1) size ::
      EvNewVector (size / LINE) ::
      map (fun i => EvClflush (r_start r + LINE * i)) (iota (size / LINE)) ++
      [EvMfence; EvNewRegion (r_size r) (r_start r);
       EvDeleteVector (size / LINE)].
Proof using std_shuffle_ok MAX_range CacheLine_layout.
  intros Hok Hb Ho Hs Hm Hc Hfuel.
  pose proof (shuffled_region_exact fuel size offset s b
                Hok Hb Ho Hs Hm Hc Hfuel) as Hrun. cbv zeta in Hrun.
  do 2 eexists. split; [exact Hrun|]. split; [reflexivity|].
  cbn [events r_start r_size]. unfold iota. now rewrite map_map.
Qed.

(** The lines of the region are the lines of the index vector. *)
Lemma region_line_position n i :
  0 <= i < n ->
  exists t, (t < length (shuffled_indexes n))%nat /\
            nth t (shuffled_indexes n) 0 = i.
Proof using std_shuffle_ok.
  intros Hi. apply In_nth. now apply shuffled_indexes_In.
Qed.

(** X13. In the region [shuffled_region] returns, [nexts[0]] of every
    line is the address of a line of the region, of another line when
    the region has more than one, and no two lines have the same
    successor: no link leaves the region, none holds the fill pattern,
    and no line is its own successor. *)
Theorem X13_shuffled_region_links_stay_in_region fuel size offset s :
  state_ok s ->
  0 <= offset -> 0 < size -> size mod LINE = 0 -> size + offset <= MAX ->
  (storage_ s = None ->
   posix_memalign (blocks s) TWO_MB (wrap (MAX + TWO_MB)) <> None) ->
  (Z.to_nat (size / LINE) <= fuel)%nat ->
  exists r s',
    shuffled_region fuel size offset s = Done (r, s') /\
    let next i := load64 (mem s') (r_start r + LINE * i) in
    (forall i, 0 <= i < size / LINE ->
       exists j, 0 <= j < size / LINE /\ next i = r_start r + LINE * j /\
                 (1 < size / LINE -> j <> i)) /\
    (forall i1 i2, 0 <= i1 < size / LINE -> 0 <= i2 < size / LINE ->
       next i1 = next i2 -> i1 = i2).
Proof using posix_memalign_ok std_shuffle_ok MAX_range CacheLine_layout.
  intros Hok Ho Hs Hm Hc Halloc Hfuel.
  destruct (static_storage_done s Hok Halloc)
    as (b & s1 & Hst & (Hb & _ & Hfit & _) & _).
  destruct (shuffled_region_from_arena fuel size offset s b s1
              Ho Hs Hm Hc Hst Hb Hfit Hfuel) as (Hl & _ & evs & Hrun).
  destruct (size_lines_exact size Hs Hm) as [Hn _].
  set (l := shuffled_indexes (size / LINE)) in *.
  assert (Hlen : length l = Z.to_nat (size / LINE))
    by apply shuffled_indexes_length.
  assert (N : (length l <> 0)%nat) by lia.
  assert (Hnd : NoDup l) by apply shuffled_indexes_NoDup.
  assert (Hv : forall i, 0 <= i < size / LINE ->
                         line_in_space LINE (b + offset) i)
    by (intros i Hi; apply (region_lines_in_space b size offset i);
        assumption).
  assert (Hin : forall t, (t < length l)%nat -> 0 <= nth t l 0 < size / LINE)
    by (intros t Ht; apply shuffled_indexes_In, nth_In, Ht).
  do 2 eexists. split; [exact Hrun|]. cbn [r_start mem]. cbv zeta. split.
  - intros i Hi. destruct (region_line_position _ i Hi) as (t & Ht & <-).
    fold l in Ht, Hi |- *.
    pose proof (Nat.mod_upper_bound (t + 1) (length l) N) as Hu.
    exists (nth ((t + 1) mod length l) l 0).
    split; [now apply Hin|]. split.
    + rewrite <- (line_ptr_small _ _ (Hv _ Hi)), (Hl t Ht).
      apply line_ptr_small, Hv, Hin, Hu.
    + intros Hmore e.
      apply (proj1 (NoDup_nth l 0) Hnd) in e; [|exact Hu | exact Ht].
      assert (e' : ((1 + t) mod length l = (1 + (t + length l - 1))
                                             mod length l)%nat).
      { replace (1 + (t + length l - 1))%nat with (t + 1 * length l)%nat by lia.
        rewrite Nat.Div0.mod_add, Nat.add_comm, e.
        symmetry. now apply Nat.mod_small. }
      destruct (Nat.eq_dec (t + 1) (length l)) as [L|L].
      * rewrite L, Nat.Div0.mod_same in e. lia.
      * rewrite Nat.mod_small in e by lia. lia.
  - intros i1 i2 H1 H2.
    destruct (region_line_position _ i1 H1) as (t1 & Ht1 & <-).
    destruct (region_line_position _ i2 H2) as (t2 & Ht2 & <-).
    fold l in Ht1, Ht2, H1, H2 |- *.
    rewrite <- (line_ptr_small _ _ (Hv _ H1)), <- (line_ptr_small _ _ (Hv _ H2)).
    rewrite (Hl t1 Ht1), (Hl t2 Ht2). intros e.
    apply line_ptr_inj in e;
      [| apply Hv, Hin, Nat.mod_upper_bound, N
       | apply Hv, Hin, Nat.mod_upper_bound, N].
    apply (proj1 (NoDup_nth l 0) Hnd) in e;
      [| apply Nat.mod_upper_bound, N | apply Nat.mod_upper_bound, N].
    rewrite (Nat.add_comm t1), (Nat.add_comm t2) in e.
    apply rot_inj in e; [now subst | exact Ht1 | exact Ht2].
Qed.

(** X14. The ring can be entered at any line: from every line of the
    region [shuffled_region] returns, not only from the first, a walk of
    [size / UB_CACHE_LINE_SIZE] steps goes through every line of the
    region once, and [count] returns that number. *)
Theorem X14_shuffled_region_ring_from_any_line fuel size offset s :
  state_ok s ->
  0 <= offset -> 0 < size -> size mod LINE = 0 -> size + offset <= MAX ->
  (storage_ s = None ->
   posix_memalign (blocks s) TWO_MB (wrap (MAX + TWO_MB)) <> None) ->
  (Z.to_nat (size / LINE) <= fuel)%nat ->
  exists r s',
    shuffled_region fuel size offset s = Done (r, s') /\
    forall i, 0 <= i < size / LINE ->
      count fuel (mem s') (r_start r + LINE * i) = Some (size / LINE) /\
      Permutation (walk (Z.to_nat (size / LINE)) (mem s')
                        (r_start r + LINE * i))
                  (map (fun j => r_start r + LINE * j) (iota (size / LINE))).
Proof using posix_memalign_ok std_shuffle_ok MAX_range CacheLine_layout.
  intros Hok Ho Hs Hm Hc Halloc Hfuel.
  destruct (static_storage_done s Hok Halloc)
    as (b & s1 & Hst & (Hb & _ & Hfit & _) & _).
  destruct (shuffled_region_from_arena fuel size offset s b s1
              Ho Hs Hm Hc Hst Hb Hfit Hfuel) as (Hl & _ & evs & Hrun).
  destruct (size_lines_exact size Hs Hm) as [Hn E].
  set (l := shuffled_indexes (size / LINE)) in *.
  assert (Hlen : length l = Z.to_nat (size / LINE))
    by apply shuffled_indexes_length.
  assert (Hv : forall i, 0 <= i < size / LINE ->
                         line_in_space LINE (b + offset) i)
    by (intros i Hi; apply (region_lines_in_space b size offset i);
        assumption).
  assert (Hvl : forall i, In i l -> line_in_space LINE (b + offset) i)
    by (intros i Hi; apply Hv, shuffled_indexes_In, Hi).
  do 2 eexists. split; [exact Hrun|]. cbn [r_start mem]. intros i Hi.
  destruct (region_line_position _ i Hi) as (t & Ht & <-).
  fold l in Ht, Hi |- *.
  rewrite <- (line_ptr_small _ _ (Hv _ Hi)). split.
  - rewrite (count_ring _ _ l t fuel Hl); try assumption.
    + rewrite Hlen. f_equal. lia.
    + apply shuffled_indexes_NoDup.
    + rewrite Hlen. pose proof LINE_bounds as [L _]. destruct MAX_range. nia.
    + lia.
  - rewrite <- Hlen. rewrite (walk_ring_perm _ _ l t Hl Ht).
    rewrite (map_ext_in (line_ptr (b + offset))
                        (fun j => b + offset + LINE * j))
      by (intros j Hj; apply line_ptr_small, Hvl, Hj).
    apply Permutation_map. symmetry. apply shuffled_indexes_perm.
Qed.

(** X15. [misaligned_ptr] does not check the misalignment, but the 2MB
    that [new_huge_ptr] leaves below the arena make room for it: for a
    misalignment between -2MB and [STORAGE_SIZE - required_size], the
    [required_size] bytes at the pointer returned lie inside the block
    obtained from [posix_memalign]. *)
Theorem X15_misaligned_ptr_stays_in_block k n misalignment s :
  state_ok s -> 0 <= n <= STORAGE_SIZE -> 0 <= k -> 2 ^ k <= TWO_MB ->
  (storage_ptr s = 0 ->
   posix_memalign (blocks s) TWO_MB (wrap (STORAGE_SIZE + TWO_MB)) <> None) ->
  - TWO_MB <= misalignment -> misalignment + n <= STORAGE_SIZE ->
  exists p s',
    misaligned_ptr (2 ^ k) n misalignment s = Done (p, s') /\
    p = storage_ptr s' + misalignment /\
    in_block (blocks s') p n.
Proof using posix_memalign_ok.
  intros Hok [Hn0 Hn] Hk Hle Halloc Hlo Hhi.
  destruct (aligned_ptr_done k n s Hok Hn Hk Hle Halloc)
    as (s' & Hrun & Hne & (Hp & Hm & Hfit & Hin) & _).
  assert (Hbase : TWO_MB <= storage_ptr s').
  { apply Z.mod_divide in Hm; [|discriminate]. destruct Hm as [q Hq].
    rewrite Hq in *. unfold TWO_MB in *. lia. }
  exists (storage_ptr s' + misalignment), s'. split; [|split].
  - unfold Util.misaligned_ptr, bind. rewrite Hrun. unfold ret.
    rewrite ptr_add_small; [reflexivity|].
    unfold STORAGE_SIZE, TWO_MB in *. lia.
  - reflexivity.
  - exists (storage_ptr s' - TWO_MB), (STORAGE_SIZE + TWO_MB).
    split; [exact Hin|]. lia.
Qed.

Lemma store_le_pointwise n : forall m1 m2 a v x,
  m1 x = m2 x -> store_le n m1 a v x = store_le n m2 a v x.
Proof.
  induction n as [|n IH]; intros m1 m2 a v x H; cbn [store_le]; [exact H|].
  apply IH. unfold store_byte. now destruct (x =? a).
Qed.

Lemma fill_nexts_pointwise k : forall m1 m2 f v x,
  m1 x = m2 x -> fill_nexts k m1 f v x = fill_nexts k m2 f v x.
Proof.
  induction k as [|k IH]; intros m1 m2 f v x H; cbn [fill_nexts]; [exact H|].
  apply IH. unfold store64. now apply store_le_pointwise.
Qed.

Lemma link_lines_pointwise st x : forall rest p m1 m2,
  m1 x = m2 x ->
  fst (link_lines st rest p m1) = fst (link_lines st rest p m2) /\
  snd (link_lines st rest p m1) x = snd (link_lines st rest p m2) x.
Proof.
  induction rest as [|i rest IH]; intros p m1 m2 H; [now split|].
  cbn [Util.link_lines]. apply IH. unfold Util.setNexts.
  now apply fill_nexts_pointwise.
Qed.

(** A byte after the linking depends on the same byte before it only. *)
Lemma link_cycle_pointwise st l m1 m2 x :
  m1 x = m2 x -> link_cycle st l m1 x = link_cycle st l m2 x.
Proof.
  intros H. unfold Util.link_cycle.
  destruct (link_lines_pointwise st x (tl l) (line_ptr st (nth 0 l 0))
              m1 m2 H) as [Hf Hs].
  destruct (link_lines st (tl l) (line_ptr st (nth 0 l 0)) m1) as [p1 n1].
  destruct (link_lines st (tl l) (line_ptr st (nth 0 l 0)) m2) as [p2 n2].
  cbn [fst snd] in Hf, Hs. subst p2. unfold Util.setNexts.
  now apply fill_nexts_pointwise.
Qed.

(** X16. [shuffled_region] builds the region from scratch: on an arena
    at the same address, the bytes of the region after the call are the
    same whatever the memory held before (an earlier region, of the same
    or of another size, leaves no trace in it). *)
Theorem X16_shuffled_region_contents_from_scratch
    fuel1 fuel2 size offset s1 s2 b :
  state_ok s1 -> state_ok s2 ->
  storage_ s1 = Some b -> storage_ s2 = Some b ->
  0 <= offset -> 0 < size -> size mod LINE = 0 -> size + offset <= MAX ->
  (Z.to_nat (size / LINE) <= fuel1)%nat ->
  (Z.to_nat (size / LINE) <= fuel2)%nat ->
  exists r s1' s2',
    shuffled_region fuel1 size offset s1 = Done (r, s1') /\
    shuffled_region fuel2 size offset s2 = Done (r, s2') /\
    forall a, r_start r <= a < r_start r + size -> mem s1' a = mem s2' a.
Proof using std_shuffle_ok MAX_range CacheLine_layout.
  intros Hok1 Hok2 Hb1 Hb2 Ho Hs Hm Hc Hf1 Hf2.
  pose proof (shuffled_region_exact fuel1 size offset s1 b
                Hok1 Hb1 Ho Hs Hm Hc Hf1) as Hrun1.
  pose proof (shuffled_region_exact fuel2 size offset s2 b
                Hok2 Hb2 Ho Hs Hm Hc Hf2) as Hrun2.
  cbv zeta in Hrun1, Hrun2.
  do 3 eexists. split; [exact Hrun1|]. split; [exact Hrun2|].
  cbn [r_start mem]. intros a Ha.
  apply link_cycle_pointwise. now rewrite !memset_mem_inside.
Qed.

End Properties.

(** ** The stand-ins meet what the program assumes of its environment *)

Lemma blocks_top_ge bs : TWO_MB <= blocks_top bs.
Proof.
  induction bs as [|b bs IH]; [apply Z.le_refl|].
  cbn [blocks_top fold_right]. fold (blocks_top bs). lia.
Qed.

Lemma bump_memalign_ok : memalign_ok bump_memalign.
Proof.
  intros bs al sz p Hal H. unfold bump_memalign in H.
  destruct (Z.ltb_spec 0 al); [|discriminate].
  destruct (Z.leb_spec 0 sz); [|discriminate]. cbn [andb] in H.
  destruct (Z.ltb_spec (al * (blocks_top bs / al + 1) + sz) (2 ^ 64));
    [|discriminate].
  injection H as <-.
  pose proof (blocks_top_ge bs) as T.
  assert (0 <= blocks_top bs / al)
    by (apply Z.div_pos; [unfold TWO_MB in T; lia | lia]).
  split; [nia|]. split; [| assumption].
  rewrite Z.mul_comm. apply Z.mod_mul. lia.
Qed.

Lemma insert_at_perm k x : forall l, Permutation (x :: l) (insert_at k x l).
Proof.
  induction k as [|k IH]; intros l; [destruct l; reflexivity|].
  destruct l as [|y l]; [reflexivity|].
  cbn [insert_at]. rewrite perm_swap. apply perm_skip. apply IH.
Qed.

Lemma lcg_shuffle_from_perm : forall l g acc,
  Permutation (l ++ acc) (lcg_shuffle_from g l acc).
Proof.
  induction l as [|x l IH]; intros g acc; [reflexivity|].
  cbn [lcg_shuffle_from app]. cbv zeta.
  rewrite <- IH. rewrite <- insert_at_perm. apply Permutation_middle.
Qed.

Lemma lcg_shuffle_ok : shuffle_ok lcg_shuffle.
Proof.
  intros seed l. unfold lcg_shuffle.
  rewrite <- lcg_shuffle_from_perm. now rewrite app_nil_r.
Qed.

Lemma run_capacity_ok : capacity_ok run_capacity.
Proof. split; [discriminate | reflexivity]. Qed.

Lemma run_layout_ok : layout_ok 64 8.
Proof. split; [lia | discriminate]. Qed.

Lemma initial_state_ok MAX : state_ok MAX initial_state.
Proof.
  split; [intros H; now contradiction H | intros p H; discriminate H].
Qed.

(** ** Runs of the model *)

Example run_eight_lines :
  match shuffled_region bump_memalign lcg_shuffle run_capacity 64 8
                        8 512 0 initial_state with
  | Done (r, s') =>
      Some (r_start r,
            map (line_index 64 (r_start r)) (walk 8 (mem s') (r_start r)),
            count 8 (mem s') (r_start r))
  | _ => None
  end = Some (6291456, [3; 5; 4; 1; 2; 6; 7; 0], Some 8).
Proof. vm_compute. reflexivity. Qed.

Example run_out_of_memory :
  new_huge_ptr no_memalign 4096 initial_state = Abort A_memalign_result.
Proof. reflexivity. Qed.

Example run_aligned_ptr_size_above_capacity :
  aligned_ptr bump_memalign 64 (STORAGE_SIZE + 1) initial_state =
  Abort A_required_size.
Proof. reflexivity. Qed.

Example run_aligned_ptr_alignment_48 :
  aligned_ptr bump_memalign 48 100 initial_state = Abort A_is_pow2.
Proof. reflexivity. Qed.

Example run_aligned_ptr_alignment_4MB :
  aligned_ptr bump_memalign (2 ^ 22) 100 initial_state = Abort A_alignment_max.
Proof. reflexivity. Qed.

Example run_shuffled_region_size_100 :
  shuffled_region bump_memalign lcg_shuffle run_capacity 64 8
                  8 100 0 initial_state = Abort A_region_multiple.
Proof. reflexivity. Qed.

Example run_shuffled_region_above_capacity :
  shuffled_region bump_memalign lcg_shuffle run_capacity 64 8
                  8 run_capacity 64 initial_state = Abort A_region_capacity.
Proof. reflexivity. Qed.

(** ** The fault in [align] *)

(** C2.  [align] does not take the out-of-space path: with 100 bytes of
    space, 200 bytes required, alignment 64 and a base at 2MB, the padding
    is 0 and the space is short of the required size, yet both assertions
    pass and the aligned address is returned.  The assignment
    [r = nullptr] of the source is overwritten before [assert(r)]. *)
Theorem C2_align_returns_when_space_is_short :
  let padding := align_up 64 TWO_MB - TWO_MB in
  100 < 200 + padding /\
  align 64 200 TWO_MB 100 initial_state = Done (TWO_MB, initial_state).
Proof. split; reflexivity. Qed.

(** ** The capacity assertion of [shuffled_region] *)

(** The sum [size + offset] of the capacity assertion is computed in
    [size_t]: for [size = 64] and [offset = 2^64 - 64] it wraps to 0, and
    with lines of 64 bytes all three assertions on the arguments pass (the
    region has one line), although [size + offset] is above any
    capacity. *)
Lemma shuffled_region_asserts_wrapped_sum MAX s :
  0 <= MAX < 2 ^ 64 ->
  MAX < 64 + (2 ^ 64 - 64) /\
  shuffled_region_asserts MAX 64 64 (2 ^ 64 - 64) s = Done (1, s).
Proof.
  intros [M0 M1]. split; [lia|].
  unfold shuffled_region_asserts, bind, assert, ret.
  change (wrap (64 + (2 ^ 64 - 64))) with 0.
  apply Z.leb_le in M0. rewrite M0. reflexivity.
Qed.

(** C6.  A sum [size + offset] above the capacity of the large arena does
    not always end [shuffled_region] in an assertion.  For [size = 64]
    and [offset = 2^64 - 64], with lines of 64 bytes, the sum wraps to 0
    in [size_t], the three assertions on the arguments pass, and the call
    returns a region of one line that starts 64 bytes below the base of
    the arena. *)
Theorem C6_shuffled_region_returns_on_wrapped_sum :
  run_capacity < 64 + (2 ^ 64 - 64) /\
  shuffled_region_asserts run_capacity 64 64 (2 ^ 64 - 64) initial_state =
    Done (1, initial_state) /\
  match shuffled_region bump_memalign lcg_shuffle run_capacity 64 8
                        1 64 (2 ^ 64 - 64) initial_state with
  | Done (r, s') =>
      r_size r = 64 /\ exists b, storage_ s' = Some b /\ r_start r = b - 64
  | _ => False
  end.
Proof.
  split; [reflexivity|]. split; [reflexivity|].
  vm_compute. split; [reflexivity|]. eexists. split; reflexivity.
Qed.

(** ** The block behind the pointer of [new_huge_ptr] *)

(** C4, as stated, fails: the block handed out for [new_huge_ptr 4096]
    has [4096 + TWO_MB] bytes, but the pointer returned lies 2MB into it,
    so the [4096 + TWO_MB] bytes from the pointer on are not inside a
    block. *)
Lemma C4_counterexample_block_behind_pointer :
  exists p s',
    new_huge_ptr bump_memalign 4096 initial_state = Done (p, s') /\
    ~ in_block (blocks s') p (4096 + TWO_MB).
Proof.
  exists (ptr_add 4194304 TWO_MB),
         (after_new_huge_ptr initial_state 4194304 4096).
  split; [now apply new_huge_ptr_done|].
  intros (base & blen & Hin & Hb & He). cbn in Hin.
  destruct Hin as [E|[]]. injection E as <- <-.
  revert He. vm_compute. intros He. now apply He.
Qed.

Lemma C4_witness :
  exists s',
    let ptr := 4194304 + TWO_MB in
    new_huge_ptr bump_memalign 4096 initial_state = Done (ptr, s') /\
    ptr mod TWO_MB = 0 /\
    blocks s' = blocks initial_state ++ [(4194304, 4096 + TWO_MB)] /\
    ptr + 4096 = 4194304 + (4096 + TWO_MB) /\
    in_block (blocks s') ptr 4096 /\
    events s' = events initial_state ++
                [EvMemalign TWO_MB (4096 + TWO_MB) 4194304;
                 EvMadvise 4194304 (4096 + TWO_MB);
                 EvMemset ptr 1 4096;
                 EvMemset ptr 0 4096] /\
    mem s' = memset_mem (memset_mem (mem initial_state) ptr 1 4096) ptr 0 4096 /\
    forall a, ptr <= a < ptr + 4096 ->
      memset_mem (mem initial_state) ptr 1 4096 a = 1 /\ mem s' a = 0.
Proof.
  apply (C4_new_huge_ptr_block_and_fill bump_memalign bump_memalign_ok
           4096 initial_state 4194304).
  - discriminate.
  - reflexivity.
  - reflexivity.
Defined.

(** ** The properties at concrete inputs *)

Lemma C1_witness_6400_bytes_100_lines :
  exists r s',
    shuffled_region bump_memalign lcg_shuffle run_capacity 64 8
                    100 6400 0 initial_state = Done (r, s') /\
    r_size r = 6400 /\
    let n := Z.to_nat (6400 / 64) in
    let w := walk n (mem s') (r_start r) in
    Permutation w (map (fun i => r_start r + 64 * i) (iota (6400 / 64))) /\
    NoDup w /\
    nth (n - 1) w 0 = r_start r /\
    (forall t, (t < n - 1)%nat -> nth t w 0 <> r_start r) /\
    count 100 (mem s') (r_start r) = Some 100.
Proof.
  apply (C1_shuffled_region_single_cycle bump_memalign lcg_shuffle
           run_capacity 64 8 bump_memalign_ok lcg_shuffle_ok
           run_capacity_ok run_layout_ok 100 6400 0 initial_state).
  - apply initial_state_ok.
  - discriminate.
  - reflexivity.
  - reflexivity.
  - discriminate.
  - intros _. discriminate.
  - vm_compute. apply Nat.le_refl.
Defined.

Lemma other_run_state_ok : state_ok run_capacity other_run_state.
Proof.
  split.
  - intros H. now contradiction H.
  - intros p [= <-]. repeat split; try reflexivity. now left.
Qed.

Lemma C5_witness :
  exists r1 s1' r2 s2',
    shuffled_region bump_memalign lcg_shuffle run_capacity 64 8
                    10 640 64 initial_state = Done (r1, s1') /\
    shuffled_region bump_memalign lcg_shuffle run_capacity 64 8
                    12 640 64 other_run_state = Done (r2, s2') /\
    state_ok run_capacity s1' /\ storage_ s1' <> None /\
    forall j,
      map (line_index 64 (r_start r1)) (walk j (mem s1') (r_start r1)) =
        ring_order (shuffled_indexes lcg_shuffle (640 / 64)) j /\
      map (line_index 64 (r_start r2)) (walk j (mem s2') (r_start r2)) =
        ring_order (shuffled_indexes lcg_shuffle (640 / 64)) j.
Proof.
  apply (C5_shuffled_region_deterministic bump_memalign lcg_shuffle
           run_capacity 64 8 bump_memalign_ok lcg_shuffle_ok
           run_capacity_ok run_layout_ok 10 12 640 64
           initial_state other_run_state).
  - apply initial_state_ok.
  - apply other_run_state_ok.
  - discriminate.
  - reflexivity.
  - reflexivity.
  - discriminate.
  - intros _. discriminate.
  - intros H. discriminate H.
  - vm_compute. apply Nat.le_refl.
  - vm_compute. lia.
Defined.

Lemma C3_witness :
  exists p s',
    aligned_ptr bump_memalign (2 ^ 6) 4096 initial_state = Done (p, s') /\
    p mod 2 ^ 6 = 0 /\
    storage_ptr s' <= p /\ p + 4096 <= storage_ptr s' + STORAGE_SIZE /\
    In (storage_ptr s' - TWO_MB, STORAGE_SIZE + TWO_MB) (blocks s').
Proof.
  apply (C3_aligned_ptr_aligned_in_arena bump_memalign run_capacity
           bump_memalign_ok 6 4096 initial_state).
  - apply initial_state_ok.
  - split; discriminate.
  - discriminate.
  - discriminate.
  - intros _. discriminate.
Defined.

Lemma C9_witness :
  exists s',
    aligned_ptr bump_memalign (2 ^ 6) 100 initial_state =
      Done (storage_ptr s', s') /\
    aligned_ptr bump_memalign (2 ^ 21) STORAGE_SIZE initial_state =
      Done (storage_ptr s', s') /\
    aligned_ptr bump_memalign (2 ^ 21) STORAGE_SIZE s' =
      Done (storage_ptr s', s') /\
    align_up (2 ^ 6) (storage_ptr s') - storage_ptr s' = 0 /\
    storage_ptr s' <> 0 /\
    arena_ok (blocks s') (storage_ptr s') STORAGE_SIZE /\
    align_padding (2 ^ 6) (storage_ptr s') = 0 /\
    align (2 ^ 6) 100 (storage_ptr s') STORAGE_SIZE s' =
      Done (storage_ptr s', s') /\
    (storage_ptr initial_state <> 0 -> s' = initial_state) /\
    (storage_ptr initial_state = 0 ->
     exists raw,
       bump_memalign (blocks initial_state) TWO_MB
                     (wrap (STORAGE_SIZE + TWO_MB)) = Some raw /\
       s' = after_first_aligned_ptr initial_state raw).
Proof.
  apply (C9_aligned_ptr_returns_arena_base bump_memalign run_capacity
           bump_memalign_ok 6 100 21 STORAGE_SIZE initial_state).
  - apply initial_state_ok.
  - split; discriminate.
  - discriminate.
  - discriminate.
  - split; discriminate.
  - discriminate.
  - discriminate.
  - intros _. discriminate.
Defined.

Lemma C7_witness :
  exists p s',
    aligned_ptr bump_memalign (2 ^ 12) 4096 initial_state = Done (p, s') /\
    misaligned_ptr bump_memalign (2 ^ 12) 4096 (-3) initial_state =
      Done (ptr_add p (-3), s') /\
    (0 <= p + -3 < 2 ^ 64 -> ptr_add p (-3) = p + -3) /\
    aligned_ptr bump_memalign (2 ^ 12) 4096 s' = Done (p, s').
Proof.
  apply (C7_misaligned_ptr_offsets_aligned_ptr bump_memalign run_capacity
           bump_memalign_ok 12 4096 (-3) initial_state).
  - apply initial_state_ok.
  - split; discriminate.
  - discriminate.
  - discriminate.
  - intros _. discriminate.
Defined.

Lemma C10_witness :
  shuffled_region bump_memalign lcg_shuffle run_capacity 64 8
                  0 0 128 initial_state = Abort A_region_lines.
Proof.
  apply (C10_shuffled_region_size_zero_aborts bump_memalign lcg_shuffle
           run_capacity 64 8 run_capacity_ok run_layout_ok 0 128
           initial_state).
  split; discriminate.
Defined.

Lemma C8_witness :
  Forall (fun '(c, p, s') =>
            state_ok run_capacity s' /\
            (storage_ptr initial_state <> 0 ->
             storage_ptr s' = storage_ptr initial_state) /\
            (forall b, storage_ initial_state = Some b -> storage_ s' = Some b) /\
            (length (blocks s') + arenas_unset s' =
             length (blocks initial_state) + arenas_unset initial_state)%nat /\
            (forall b, In b (blocks initial_state) -> In b (blocks s')) /\
            returned_from_arena c p s')
         (run_calls bump_memalign lcg_shuffle run_capacity 64 8
            [CallAligned 64 100; CallShuffled 10 640 0;
             CallMisaligned 4096 10 1; CallShuffled 4 256 64;
             CallAligned 8 STORAGE_SIZE]
            initial_state).
Proof.
  apply (C8_arenas_created_once_and_reused bump_memalign lcg_shuffle
           run_capacity 64 8 bump_memalign_ok run_capacity_ok).
  apply initial_state_ok.
Defined.

(** * Further properties of util.cpp *)

(** ** [count] on any memory *)

Lemma count_loop_returns m first : forall fuel p cnt c,
  0 <= cnt -> cnt + Z.of_nat fuel < 2 ^ 64 ->
  (count_loop fuel m first p cnt = Some c <->
   exists k, (1 <= k <= fuel)%nat /\ c = cnt + Z.of_nat k /\
             follow k m p = first /\
             forall j, (1 <= j < k)%nat -> follow j m p <> first).
Proof.
  induction fuel as [|fuel IH]; intros p cnt c Hc Hf.
  - cbn [count_loop]. split; [discriminate | intros (k & Hk & _); lia].
  - cbn [count_loop]. cbv zeta. rewrite wrap_small by lia.
    destruct (Z.eqb_spec (load64 m p) first) as [E|NE]; cbn [negb].
    + split.
      * intros [= <-]. exists 1%nat. repeat split; try lia. exact E.
      * intros (k & Hk & -> & Hback & Hfirst).
        destruct (Nat.eq_dec k 1) as [->|Hk1]; [f_equal; lia|].
        exfalso. apply (Hfirst 1%nat); [lia | exact E].
    + rewrite (IH (load64 m p) (cnt + 1) c) by lia. split.
      * intros (k & Hk & -> & Hback & Hfirst). exists (S k).
        split; [lia|]. split; [lia|]. split; [exact Hback|].
        intros j Hj. destruct j as [|j]; [lia|].
        destruct (Nat.eq_dec j 0) as [->|Hj0]; [exact NE|].
        apply Hfirst. lia.
      * intros (k & Hk & -> & Hback & Hfirst).
        destruct k as [|k]; [lia|].
        destruct (Nat.eq_dec k 0) as [->|Hk0]; [now destruct NE|].
        exists k. split; [lia|]. split; [lia|]. split; [exact Hback|].
        intros j Hj. apply (Hfirst (S j)). lia.
Qed.

(** X1. [count(first)] returns [k] exactly when [first] is reached again
    after [k >= 1] steps along [nexts[0]] and not before: the result is
    the length of the cycle through [first], never 0, whatever the memory
    holds (the fuel stands for the time the loop is given). *)
Theorem X1_count_is_first_return fuel m first c :
  Z.of_nat fuel < 2 ^ 64 ->
  (count fuel m first = Some c <->
   exists k, (1 <= k <= fuel)%nat /\ c = Z.of_nat k /\
             follow k m first = first /\
             forall j, (1 <= j < k)%nat -> follow j m first <> first).
Proof.
  intros Hf. unfold count.
  rewrite (count_loop_returns m first fuel first 0 c) by lia.
  split; intros (k & Hk & Hc & H); exists k; (split; [exact Hk|]);
    (split; [lia | exact H]).
Qed.

Lemma count_loop_never m first : forall fuel p cnt,
  (forall j, (1 <= j)%nat -> follow j m p <> first) ->
  count_loop fuel m first p cnt = None.
Proof.
  induction fuel as [|fuel IH]; intros p cnt H; [reflexivity|].
  cbn [count_loop]. cbv zeta.
  destruct (Z.eqb_spec (load64 m p) first) as [E|NE]; cbn [negb].
  - exfalso. apply (H 1%nat); [lia | exact E].
  - apply IH. intros j Hj. apply (H (S j)). lia.
Qed.

(** X2. When the chain from [first] never comes back to [first] (it ends
    in a cycle that [first] is not part of), the loop of [count] does not
    end: no amount of fuel gives a result. *)
Theorem X2_count_hangs_off_cycle m first :
  (forall j, (1 <= j)%nat -> follow j m first <> first) ->
  forall fuel, count fuel m first = None.
Proof. intros H fuel. unfold count. now apply count_loop_never. Qed.

Lemma lasso_memory_follow j : (1 <= j)%nat -> follow j lasso_memory 8 = 16.
Proof.
  intros Hj. destruct j as [|j]; [lia|]. clear Hj.
  cbn [follow]. change (load64 lasso_memory 8) with 16.
  induction j as [|j IH]; [reflexivity|].
  cbn [follow]. change (load64 lasso_memory 16) with 16. exact IH.
Qed.

Lemma X1_witness :
  count 5 lasso_memory 16 = Some 1 <->
  exists k, (1 <= k <= 5)%nat /\ 1 = Z.of_nat k /\
            follow k lasso_memory 16 = 16 /\
            forall j, (1 <= j < k)%nat -> follow j lasso_memory 16 <> 16.
Proof.
  apply (X1_count_is_first_return 5 lasso_memory 16 1). reflexivity.
Defined.

Lemma X2_witness : count 1000 lasso_memory 8 = None.
Proof.
  apply (X2_count_hangs_off_cycle lasso_memory 8).
  intros j Hj. rewrite (lasso_memory_follow j Hj). discriminate.
Defined.

(** ** [align] on power-of-two alignments *)

(** X3. For a power-of-two alignment and a non-null base [p] with
    [p + alignment] inside the address space, [align] returns the
    smallest multiple of the alignment that is not below [p], less than
    one alignment above [p], and leaves the state as it is. *)
Theorem X3_align_least_aligned_address k n p space s :
  0 <= k -> 0 < p -> p + 2 ^ k <= 2 ^ 64 ->
  exists r,
    align (2 ^ k) n p space s = Done (r, s) /\
    p <= r < p + 2 ^ k /\ r mod 2 ^ k = 0 /\
    forall r', p <= r' -> r' mod 2 ^ k = 0 -> r <= r'.
Proof.
  intros Hk Hp Hle.
  assert (P : 0 < 2 ^ k) by (apply Z.pow_pos_nonneg; lia).
  exists (align_up (2 ^ k) p).
  split; [now apply align_done|].
  destruct (align_up_bounds (2 ^ k) p P) as (B & Hm).
  split; [exact B|]. split; [exact Hm|].
  intros r' Hr' Hm'.
  apply Z.mod_divide in Hm; [|lia]. apply Z.mod_divide in Hm'; [|lia].
  destruct Hm as [q Hq]. destruct Hm' as [q' Hq'].
  rewrite Hq in *. rewrite Hq' in *.
  destruct (Z.le_gt_cases q q') as [L|G].
  - apply Z.mul_le_mono_nonneg_r; lia.
  - exfalso. assert (G' : q' + 1 <= q) by lia.
    pose proof (Z.mul_le_mono_nonneg_r _ _ (2 ^ k) (Z.lt_le_incl _ _ P) G').
    lia.
Qed.

Lemma X3_witness :
  exists r,
    align (2 ^ 6) 100 1000 4096 initial_state = Done (r, initial_state) /\
    1000 <= r < 1000 + 2 ^ 6 /\ r mod 2 ^ 6 = 0 /\
    forall r', 1000 <= r' -> r' mod 2 ^ 6 = 0 -> r <= r'.
Proof.
  apply (X3_align_least_aligned_address 6 100 1000 4096 initial_state).
  - discriminate.
  - reflexivity.
  - discriminate.
Defined.

(** X4. When no multiple of the alignment fits between [p] and the top
    of the address space, the sum [pn + base_alignment - 1] wraps, the
    aligned address comes out as the null pointer, and [align] ends in
    [assert(r)]. *)
Theorem X4_align_aborts_at_top_of_address_space k n p space s :
  0 <= k < 64 -> 0 <= p < 2 ^ 64 -> 2 ^ 64 < p + 2 ^ k ->
  align (2 ^ k) n p space s = Abort A_align_nonnull.
Proof.
  intros Hk Hp Hlt.
  assert (P : 0 < 2 ^ k) by (apply Z.pow_pos_nonneg; lia).
  assert (Q : 2 ^ k < 2 ^ 64) by (apply Z.pow_lt_mono_r; lia).
  unfold align. cbv zeta.
  assert (E1 : wrap (p + 2 ^ k) = p + 2 ^ k - 2 ^ 64).
  { unfold wrap. symmetry. apply (Z.mod_unique _ _ 1); lia. }
  rewrite E1. rewrite (wrap_small (p + 2 ^ k - 2 ^ 64 - 1)) by lia.
  rewrite land_neg_pow2 by lia.
  rewrite Z.div_small by lia. rewrite Z.mul_0_r.
  reflexivity.
Qed.

Lemma X4_witness :
  align (2 ^ 6) 100 (2 ^ 64 - 10) 4096 initial_state = Abort A_align_nonnull.
Proof.
  apply (X4_align_aborts_at_top_of_address_space 6 100 (2 ^ 64 - 10) 4096
           initial_state).
  - split; [discriminate | reflexivity].
  - split; [discriminate | reflexivity].
  - reflexivity.
Defined.

(** ** Wildcard matching without [std::regex] *)

Lemma index_char_cons c d s :
  String.index 0 (String.String c String.EmptyString) (String.String d s) =
  if Ascii.eqb d c then Some O
  else match String.index 0 (String.String c String.EmptyString) s with
       | Some n => Some (S n)
       | None => None
       end.
Proof.
  cbn [String.index String.prefix].
  destruct (Ascii.ascii_dec c d) as [->|Hne].
  - rewrite Ascii.eqb_refl. now destruct s.
  - destruct (Ascii.eqb_spec d c) as [->|_]; [now destruct Hne | reflexivity].
Qed.

Lemma find_char_absent c s :
  NoRegex.find_char c s = None <-> occurs c s = false.
Proof.
  unfold NoRegex.find_char. induction s as [|d s IH].
  - cbn. split; reflexivity.
  - rewrite index_char_cons. cbn [occurs].
    destruct (Ascii.eqb d c); cbn [orb]; [split; discriminate|].
    rewrite <- IH.
    destruct (String.index 0 (String.String c String.EmptyString) s);
      split; (discriminate || reflexivity).
Qed.

(** The first occurrence splits the string. *)
Lemma find_char_found c s i :
  NoRegex.find_char c s = Some i <->
  exists p r, s = String.append p (String.String c r) /\
              occurs c p = false /\ i = String.length p.
Proof.
  unfold NoRegex.find_char. revert i. induction s as [|d s IH]; intros i.
  - cbn. split; [discriminate|].
    intros (p & r & E & _). destruct p; discriminate.
  - rewrite index_char_cons. destruct (Ascii.eqb_spec d c) as [->|Hne].
    + split.
      * intros [= <-]. exists String.EmptyString, s. now repeat split.
      * intros (p & r & E & Hp & ->). destruct p as [|e p]; [reflexivity|].
        cbn in E, Hp. injection E as <- _.
        rewrite Ascii.eqb_refl in Hp. discriminate.
    + split.
      * destruct (String.index 0 (String.String c String.EmptyString) s)
          as [n|] eqn:E; [|discriminate].
        intros [= <-]. destruct (proj1 (IH n) eq_refl) as (p & r & -> & Hp & ->).
        exists (String.String d p), r. cbn [String.append occurs String.length].
        destruct (Ascii.eqb_spec d c); [contradiction|]. now repeat split.
      * intros (p & r & E & Hp & ->). destruct p as [|e p].
        { cbn in E. injection E as -> _. now destruct Hne. }
        cbn in E, Hp. injection E as <- ->.
        apply orb_false_iff in Hp. destruct Hp as [_ Hp].
        rewrite (proj2 (IH (String.length p))); [reflexivity|].
        exists p, r. now repeat split.
Qed.

Lemma length_append_string p r :
  String.length (String.append p r) = (String.length p + String.length r)%nat.
Proof. induction p as [|c p IH]; cbn; [reflexivity | now rewrite IH]. Qed.

Lemma substring_append_left p r :
  String.substring 0 (String.length p) (String.append p r) = p.
Proof.
  induction p as [|c p IH]; cbn; [now destruct r | now rewrite IH].
Qed.

(** [target.find(prefix) == 0] is the prefix test. *)
Lemma index_at_zero p t :
  match String.index 0 p t with Some O => true | _ => false end =
  String.prefix p t.
Proof.
  destruct t as [|d t].
  - cbn. now destruct p.
  - cbn [String.index]. destruct (String.prefix p (String.String d t)).
    + reflexivity.
    + now destruct (String.index 0 p t).
Qed.

Lemma prefix_append p : forall t,
  String.prefix p t = true <-> exists rest, t = String.append p rest.
Proof.
  induction p as [|c p IH]; intros t.
  - cbn. split; [intros _; now exists t | now destruct t].
  - destruct t as [|d t]; cbn [String.prefix String.append].
    + split; [discriminate | intros (rest & E); discriminate].
    + destruct (Ascii.ascii_dec c d) as [->|Hne].
      * rewrite IH. split; intros (rest & E); exists rest; congruence.
      * split; [discriminate|]. intros (rest & E). injection E as -> _.
        now destruct Hne.
Qed.

(** X5. A pattern without a star is matched literally: the call returns,
    and returns [true] exactly for the target equal to the pattern. *)
Theorem X5_wildcard_match_literal target pattern :
  occurs "*"%char pattern = false ->
  exists b, NoRegex.wildcard_match target pattern = Returned b /\
            (b = true <-> target = pattern).
Proof.
  intros H. apply find_char_absent in H.
  unfold NoRegex.wildcard_match. rewrite H.
  exists (String.eqb target pattern). split; [reflexivity|].
  apply String.eqb_eq.
Qed.

(** X6. A pattern that is a star-free prefix followed by one star matches
    exactly the targets that begin with the prefix; the pattern that is
    just a star matches every target. *)
Theorem X6_wildcard_match_trailing_star target prefix :
  occurs "*"%char prefix = false ->
  exists b,
    NoRegex.wildcard_match target (String.append prefix "*"%string) =
      Returned b /\
    (b = true <-> exists rest, target = String.append prefix rest).
Proof.
  intros H. unfold NoRegex.wildcard_match.
  rewrite (proj2 (find_char_found "*"%char _ (String.length prefix)))
    by (exists prefix, String.EmptyString; now repeat split).
  rewrite length_append_string. cbn [String.length].
  replace (String.length prefix + 1 - 1)%nat with (String.length prefix) by lia.
  rewrite Nat.eqb_refl. cbv zeta.
  rewrite substring_append_left, index_at_zero.
  exists (String.prefix prefix target). split; [reflexivity|].
  apply prefix_append.
Qed.

(** X7. The call throws exactly when something follows the first star of
    the pattern, whatever the target: a star in the middle, or a second
    star, is not supported. *)
Theorem X7_wildcard_match_throws target pattern :
  (exists what, NoRegex.wildcard_match target pattern = Threw what) <->
  (exists p r, pattern = String.append p (String.String "*"%char r) /\
               occurs "*"%char p = false /\ r <> String.EmptyString).
Proof.
  unfold NoRegex.wildcard_match.
  destruct (NoRegex.find_char "*"%char pattern) as [i|] eqn:F.
  - destruct (proj1 (find_char_found _ _ _) F) as (p & r & -> & Hp & ->).
    rewrite length_append_string. cbn [String.length].
    replace (String.length p + S (String.length r) - 1)%nat
      with (String.length p + String.length r)%nat by lia.
    destruct (Nat.eqb_spec (String.length p)
                           (String.length p + String.length r)) as [E|NE].
    + split; [intros (what & W); discriminate|].
      intros (p' & r' & E' & Hp' & Hr').
      pose proof (proj2 (find_char_found "*"%char _ (String.length p'))
                    (ex_intro _ p' (ex_intro _ r' (conj E' (conj Hp' eq_refl)))))
        as F'.
      rewrite F in F'. injection F' as L.
      apply (f_equal String.length) in E'.
      rewrite !length_append_string in E'. cbn [String.length] in E'.
      destruct r' as [|c r']; [now destruct Hr' | cbn in E'; lia].
    + split; [|intros _; eexists; reflexivity].
      intros _. exists p, r. split; [reflexivity|]. split; [exact Hp|].
      intros ->. cbn in NE. lia.
  - split; [intros (what & W); discriminate|].
    intros (p & r & E & Hp & _).
    pose proof (proj2 (find_char_found "*"%char _ (String.length p))
                  (ex_intro _ p (ex_intro _ r (conj E (conj Hp eq_refl))))) as F'.
    rewrite F in F'. discriminate.
Qed.

Example run_wildcard_regex :
  Regex.wildcard_regex "mem/load-*.x"%string = "mem/load\-.*\.x"%string.
Proof. reflexivity. Qed.

Example run_wildcard_regex_backslash :
  Regex.wildcard_regex "a\*"%string = "a\.*"%string.
Proof. reflexivity. Qed.

Example run_wildcard_match_middle_star :
  exists what,
    NoRegex.wildcard_match "abc"%string "a*c"%string = Threw what.
Proof. eexists. reflexivity. Qed.

Lemma X5_witness :
  exists b,
    NoRegex.wildcard_match "add-loop"%string "add-loop"%string = Returned b /\
    (b = true <-> "add-loop"%string = "add-loop"%string).
Proof.
  apply (X5_wildcard_match_literal "add-loop"%string "add-loop"%string).
  reflexivity.
Defined.

Lemma X6_witness :
  exists b,
    NoRegex.wildcard_match "memory/load"%string
                           (String.append "memory/"%string "*"%string) =
      Returned b /\
    (b = true <->
     exists rest, "memory/load"%string = String.append "memory/"%string rest).
Proof.
  apply (X6_wildcard_match_trailing_star "memory/load"%string
           "memory/"%string).
  reflexivity.
Defined.

(** ** The regular expression built from a wildcard pattern *)

Lemma chars_to_escape_backslash c :
  Regex.chars_to_escape c = true -> Ascii.eqb c "\"%char = false.
Proof.
  intros H. destruct (Ascii.eqb_spec c "\"%char) as [->|_]; [|reflexivity].
  discriminate H.
Qed.

Lemma replace_cons_other c r :
  Ascii.eqb c "\"%char = false ->
  Regex.replace_escaped_stars (String.String c r) =
  String.String c (Regex.replace_escaped_stars r).
Proof.
  intros H. cbn [Regex.replace_escaped_stars]. rewrite H. cbn [andb].
  now destruct r.
Qed.

Lemma replace_cons_no_star c r :
  (forall r', r <> String.String "*"%char r') ->
  Regex.replace_escaped_stars (String.String c r) =
  String.String c (Regex.replace_escaped_stars r).
Proof.
  intros H. cbn [Regex.replace_escaped_stars].
  destruct r as [|d r']; [reflexivity|].
  destruct (Ascii.eqb_spec d "*"%char) as [->|_].
  - now destruct (H r').
  - now rewrite andb_false_r.
Qed.

Lemma replace_backslash_other c r :
  Ascii.eqb c "*"%char = false ->
  Regex.replace_escaped_stars (String.String "\"%char (String.String c r)) =
  String.String "\"%char (Regex.replace_escaped_stars (String.String c r)).
Proof.
  intros H.
  change (Regex.replace_escaped_stars
            (String.String "\"%char (String.String c r)))
    with (if Ascii.eqb "\"%char "\"%char && Ascii.eqb c "*"%char
          then String.String "."%char
                 (String.String "*"%char (Regex.replace_escaped_stars r))
          else String.String "\"%char
                 (Regex.replace_escaped_stars (String.String c r))).
  now rewrite H, andb_false_r.
Qed.

(** An escaped string never begins with a bare star. *)
Lemma escape_for_regex_no_leading_star s r' :
  Regex.escape_for_regex s <> String.String "*"%char r'.
Proof.
  destruct s as [|c s]; [discriminate|].
  cbn [Regex.escape_for_regex].
  destruct (Regex.chars_to_escape c) eqn:E; [discriminate|].
  intros [= -> _]. discriminate E.
Qed.

(** X8. The two replacements of [wildcard_match] compose to a
    translation character by character: in the regular expression that
    is matched against the target, every star of the pattern has become
    [.*], every other character of the class [chars_to_escape] stands
    after a backslash, and every other character, the backslash included,
    is left as it is.  The second replacement never takes the backslash
    of an escaped character, or a backslash of the pattern, for the
    mark of a star. *)
Theorem X8_wildcard_regex_by_character regex_match target pattern :
  Regex.wildcard_regex pattern = wildcard_chars pattern /\
  Regex.wildcard_match regex_match target pattern =
    regex_match target (wildcard_chars pattern).
Proof.
  assert (E : Regex.wildcard_regex pattern = wildcard_chars pattern).
  { unfold Regex.wildcard_regex.
    induction pattern as [|c s IH]; [reflexivity|].
    cbn [Regex.escape_for_regex wildcard_chars]. unfold wildcard_char.
    destruct (Regex.chars_to_escape c) eqn:C.
    - destruct (Ascii.eqb_spec c "*"%char) as [->|Hne].
      + cbn [Regex.replace_escaped_stars Ascii.eqb andb].
        change (Ascii.eqb "\"%char "\"%char && Ascii.eqb "*"%char "*"%char)
          with true. cbv iota. rewrite IH. reflexivity.
      + apply Ascii.eqb_neq in Hne. rewrite (replace_backslash_other c _ Hne).
        rewrite replace_cons_other by now apply chars_to_escape_backslash.
        rewrite IH. reflexivity.
    - destruct (Ascii.eqb_spec c "*"%char) as [->|Hne]; [discriminate C|].
      rewrite replace_cons_no_star
        by (intros r'; apply escape_for_regex_no_leading_star).
      rewrite IH. reflexivity. }
  split; [exact E|]. unfold Regex.wildcard_match. cbv zeta.
  fold (Regex.wildcard_regex pattern). now rewrite E.
Qed.

(** ** The further properties at concrete inputs *)

Lemma X9_witness :
  exists s',
    let p := 4194304 + TWO_MB in
    aligned_ptr bump_memalign (2 ^ 6) 100 initial_state = Done (p, s') /\
    storage_ptr s' = p /\
    (forall a, p <= a < p + STORAGE_SIZE -> mem s' a = 0) /\
    (forall a, a < p \/ p + STORAGE_SIZE <= a ->
               mem s' a = mem initial_state a) /\
    events s' = events initial_state ++
                [EvMemalign TWO_MB (STORAGE_SIZE + TWO_MB) 4194304;
                 EvMadvise 4194304 (STORAGE_SIZE + TWO_MB);
                 EvMemset p 1 STORAGE_SIZE;
                 EvMemset p 0 STORAGE_SIZE].
Proof.
  apply (X9_aligned_ptr_first_call_zeroes_arena bump_memalign
           bump_memalign_ok 6 100 initial_state 4194304).
  - split; discriminate.
  - discriminate.
  - discriminate.
  - reflexivity.
  - reflexivity.
Defined.

Lemma X10_witness :
  aligned_ptr no_memalign (2 ^ 6) 100 initial_state =
    Abort A_memalign_result /\
  misaligned_ptr no_memalign (2 ^ 6) 100 3 initial_state =
    Abort A_memalign_result /\
  shuffled_region no_memalign lcg_shuffle run_capacity 64 8
                  10 640 0 initial_state = Abort A_memalign_result.
Proof.
  apply (X10_allocation_failure_is_fatal no_memalign lcg_shuffle
           run_capacity 64 8 run_capacity_ok run_layout_ok
           6 100 3 10 640 0 initial_state).
  - split; discriminate.
  - discriminate.
  - discriminate.
  - discriminate.
  - reflexivity.
  - reflexivity.
  - discriminate.
  - reflexivity.
  - reflexivity.
  - intros len. reflexivity.
Defined.

Lemma X11_witness :
  exists s',
    shuffled_region bump_memalign lcg_shuffle run_capacity 64 8
                    10 640 64 other_run_state =
      Done (mkRegion 640 (5 * TWO_MB + 64), s') /\
    (forall base len a,
       In (base, len) (blocks other_run_state) -> base <= a < base + len ->
       a < 5 * TWO_MB + 64 \/ 5 * TWO_MB + 64 + 640 <= a ->
       mem s' a = mem other_run_state a) /\
    5 * TWO_MB <= 5 * TWO_MB + 64 /\
    5 * TWO_MB + 64 + 640 <= 5 * TWO_MB + run_capacity /\
    In (5 * TWO_MB - TWO_MB, run_capacity + TWO_MB)
       (blocks other_run_state) /\
    storage_ptr s' = storage_ptr other_run_state /\
    storage_ s' = storage_ other_run_state /\
    blocks s' = blocks other_run_state.
Proof.
  apply (X11_shuffled_region_writes_inside_region bump_memalign lcg_shuffle
           run_capacity 64 8 lcg_shuffle_ok run_capacity_ok run_layout_ok
           10 640 64 other_run_state (5 * TWO_MB)).
  - apply other_run_state_ok.
  - reflexivity.
  - discriminate.
  - reflexivity.
  - reflexivity.
  - discriminate.
  - vm_compute. apply Nat.le_refl.
Defined.

Lemma X12_witness :
  exists r s',
    shuffled_region bump_memalign lcg_shuffle run_capacity 64 8
                    10 640 64 other_run_state = Done (r, s') /\
    r = mkRegion 640 (5 * TWO_MB + 64) /\
    events s' =
      events other_run_state ++
      EvMemset (r_start r) (-1) 640 ::
      EvNewVector (640 / 64) ::
      map (fun i => EvClflush (r_start r + 64 * i)) (iota (640 / 64)) ++
      [EvMfence; EvNewRegion (r_size r) (r_start r);
       EvDeleteVector (640 / 64)].
Proof.
  apply (X12_shuffled_region_flushes_every_line bump_memalign lcg_shuffle
           run_capacity 64 8 lcg_shuffle_ok run_capacity_ok run_layout_ok
           10 640 64 other_run_state (5 * TWO_MB)).
  - apply other_run_state_ok.
  - reflexivity.
  - discriminate.
  - reflexivity.
  - reflexivity.
  - discriminate.
  - vm_compute. apply Nat.le_refl.
Defined.

Lemma X13_witness :
  exists r s',
    shuffled_region bump_memalign lcg_shuffle run_capacity 64 8
                    10 640 0 initial_state = Done (r, s') /\
    let next i := load64 (mem s') (r_start r + 64 * i) in
    (forall i, 0 <= i < 640 / 64 ->
       exists j, 0 <= j < 640 / 64 /\ next i = r_start r + 64 * j /\
                 (1 < 640 / 64 -> j <> i)) /\
    (forall i1 i2, 0 <= i1 < 640 / 64 -> 0 <= i2 < 640 / 64 ->
       next i1 = next i2 -> i1 = i2).
Proof.
  apply (X13_shuffled_region_links_stay_in_region bump_memalign lcg_shuffle
           run_capacity 64 8 bump_memalign_ok lcg_shuffle_ok
           run_capacity_ok run_layout_ok 10 640 0 initial_state).
  - apply initial_state_ok.
  - discriminate.
  - reflexivity.
  - reflexivity.
  - discriminate.
  - intros _. discriminate.
  - vm_compute. apply Nat.le_refl.
Defined.

Lemma X14_witness :
  exists r s',
    shuffled_region bump_memalign lcg_shuffle run_capacity 64 8
                    10 640 0 initial_state = Done (r, s') /\
    forall i, 0 <= i < 640 / 64 ->
      count 10 (mem s') (r_start r + 64 * i) = Some (640 / 64) /\
      Permutation (walk (Z.to_nat (640 / 64)) (mem s') (r_start r + 64 * i))
                  (map (fun j => r_start r + 64 * j) (iota (640 / 64))).
Proof.
  apply (X14_shuffled_region_ring_from_any_line bump_memalign lcg_shuffle
           run_capacity 64 8 bump_memalign_ok lcg_shuffle_ok
           run_capacity_ok run_layout_ok 10 640 0 initial_state).
  - apply initial_state_ok.
  - discriminate.
  - reflexivity.
  - reflexivity.
  - discriminate.
  - intros _. discriminate.
  - vm_compute. apply Nat.le_refl.
Defined.

Lemma X15_witness :
  exists p s',
    misaligned_ptr bump_memalign (2 ^ 6) 4096 (-64) initial_state =
      Done (p, s') /\
    p = storage_ptr s' + -64 /\
    in_block (blocks s') p 4096.
Proof.
  apply (X15_misaligned_ptr_stays_in_block bump_memalign run_capacity
           bump_memalign_ok 6 4096 (-64) initial_state).
  - apply initial_state_ok.
  - split; discriminate.
  - discriminate.
  - discriminate.
  - intros _. discriminate.
  - discriminate.
  - discriminate.
Defined.

Lemma earlier_region_state_ok : state_ok run_capacity earlier_region_state.
Proof.
  split.
  - intros H. now contradiction H.
  - intros p [= <-]. repeat split; try reflexivity. now left.
Qed.

Lemma X16_witness :
  exists r s1' s2',
    shuffled_region bump_memalign lcg_shuffle run_capacity 64 8
                    10 640 64 other_run_state = Done (r, s1') /\
    shuffled_region bump_memalign lcg_shuffle run_capacity 64 8
                    12 640 64 earlier_region_state = Done (r, s2') /\
    forall a, r_start r <= a < r_start r + 640 -> mem s1' a = mem s2' a.
Proof.
  apply (X16_shuffled_region_contents_from_scratch bump_memalign lcg_shuffle
           run_capacity 64 8 lcg_shuffle_ok run_capacity_ok run_layout_ok
           10 12 640 64 other_run_state earlier_region_state (5 * TWO_MB)).
  - apply other_run_state_ok.
  - apply earlier_region_state_ok.
  - reflexivity.
  - reflexivity.
  - discriminate.
  - reflexivity.
  - reflexivity.
  - discriminate.
  - vm_compute. apply Nat.le_refl.
  - vm_compute. lia.
Defined.
